(** * Tournament progression engine of the Valorant S23 portal

    A shallow embedding of these pieces of the portal:

    - [Standings]: [computeStandings] of [new_stack/web/utils/standings.ts]
      and the per-group split of the standings page;
    - [MapSave]: the [POST] handler of
      [new/src/app/api/admin/maps/save/route.ts] (match outcome and
      bracket propagation);
    - [Admin]: the playoff bracket editor and the forfeit save of the
      admin page;
    - [MatchUpdate]: the [POST] handler of
      [new/src/app/api/admin/matches/update/route.ts];
    - [Editor]: the cells of the bracket editor and the choice of a team
      in a cell;
    - [Middleware]: the rate limiter of [new/src/middleware.ts].

    JavaScript numbers that hold database keys are modelled by [N],
    scores and counters by [Z]; a nullable column is an [option]. *)

From Stdlib Require Import ZArith NArith Lia Ascii String.
From stdpp Require Import base option list gmap strings sorting pretty.

Local Open Scope Z_scope.

(** ** JavaScript idioms shared by the three modules *)

Module JS.

(** [String.prototype.toLowerCase] on the ASCII range. *)
Definition lower_ascii (c : ascii) : ascii :=
  let n := nat_of_ascii c in
  if (Nat.leb 65 n && Nat.leb n 90)%bool then ascii_of_nat (n + 32) else c.

Fixpoint toLowerCase (s : string) : string :=
  match s with
  | EmptyString => EmptyString
  | String c s' => String (lower_ascii c) (toLowerCase s')
  end.

(** [x || d] for a nullable string: [null] and the empty string are falsy. *)
Definition str_or (x : option string) (d : string) : string :=
  match x with
  | Some s => if String.eqb s "" then d else s
  | None => d
  end.

(** [x || d] for a nullable number: [null] and [0] are falsy. *)
Definition num_or (x : option Z) (d : Z) : Z :=
  match x with
  | Some 0 => d
  | Some z => z
  | None => d
  end.

(** Truthiness of a nullable key ([!id] is its negation): [null] and [0]
    are falsy. *)
Definition truthy (x : option N) : bool :=
  match x with
  | Some k => negb (k =? 0)%N
  | None => false
  end.

(** Strict equality [a === b] of two nullable keys. *)
Definition strict_eq (a b : option N) : bool := bool_decide (a = b).

(** The order of two properties by their keys. *)
Definition key_le {A} (a b : N * A) : Prop := (a.1 ≤ b.1)%N.

#[global] Instance key_le_dec {A} : RelDecision (@key_le A) :=
  λ a b, decide ((a.1 ≤ b.1)%N).

(** [Object.values] of an object whose keys are array indices: the
    properties are enumerated in ascending key order. *)
Definition Object_values {A} (o : gmap N A) : list A :=
  (merge_sort key_le (map_to_list o)).*2.

End JS.

(** ** The standings calculator *)

Module Standings.
Import JS.

Record Team := mkTeam {
  t_id : N;
  t_name : string;
  t_group_name : string
}.

Record Match := mkMatch {
  m_id : N;
  m_team1_id : option N;
  m_team2_id : option N;
  m_match_type : option string;
  m_status : option string;
  m_score_t1 : option Z;
  m_score_t2 : option Z;
  m_maps_played : option Z;
  m_is_forfeit : option Z
}.

Record MapRow := mkMapRow {
  mr_match_id : N;
  mr_team1_rounds : option Z;
  mr_team2_rounds : option Z
}.

Record StandingRow := mkRow {
  r_id : N;
  r_name : string;
  r_group_name : string;
  r_played : Z;
  r_wins : Z;
  r_losses : Z;
  r_points : Z;
  r_pd : Z;
  r_remaining : Z;
  r_eliminated : bool
}.

(** The row stored for a team by the first [forEach]. *)
Definition blank (t : Team) : StandingRow :=
  mkRow (t_id t) (t_name t) (t_group_name t) 0 0 0 0 0 0 false.

(** Field updates [r.f += d] and [r.eliminated = b]. *)
Definition add_played (d : Z) (r : StandingRow) : StandingRow :=
  mkRow (r_id r) (r_name r) (r_group_name r) (r_played r + d) (r_wins r)
        (r_losses r) (r_points r) (r_pd r) (r_remaining r) (r_eliminated r).
Definition add_wins (d : Z) (r : StandingRow) : StandingRow :=
  mkRow (r_id r) (r_name r) (r_group_name r) (r_played r) (r_wins r + d)
        (r_losses r) (r_points r) (r_pd r) (r_remaining r) (r_eliminated r).
Definition add_losses (d : Z) (r : StandingRow) : StandingRow :=
  mkRow (r_id r) (r_name r) (r_group_name r) (r_played r) (r_wins r)
        (r_losses r + d) (r_points r) (r_pd r) (r_remaining r) (r_eliminated r).
Definition add_points (d : Z) (r : StandingRow) : StandingRow :=
  mkRow (r_id r) (r_name r) (r_group_name r) (r_played r) (r_wins r)
        (r_losses r) (r_points r + d) (r_pd r) (r_remaining r) (r_eliminated r).
Definition add_pd (d : Z) (r : StandingRow) : StandingRow :=
  mkRow (r_id r) (r_name r) (r_group_name r) (r_played r) (r_wins r)
        (r_losses r) (r_points r) (r_pd r + d) (r_remaining r) (r_eliminated r).
Definition add_remaining (d : Z) (r : StandingRow) : StandingRow :=
  mkRow (r_id r) (r_name r) (r_group_name r) (r_played r) (r_wins r)
        (r_losses r) (r_points r) (r_pd r) (r_remaining r + d) (r_eliminated r).
Definition set_eliminated (b : bool) (r : StandingRow) : StandingRow :=
  mkRow (r_id r) (r_name r) (r_group_name r) (r_played r) (r_wins r)
        (r_losses r) (r_points r) (r_pd r) (r_remaining r) b.

(** [matches.filter(m => (m.match_type || "").toLowerCase() === "regular")] *)
Definition is_regular (m : Match) : bool :=
  String.eqb (toLowerCase (str_or (m_match_type m) "")) "regular".

(** The [roundAgg] map: summed rounds per match id over the map rows. *)
Definition add_map (agg : gmap N (Z * Z)) (row : MapRow) : gmap N (Z * Z) :=
  let cur := default (0, 0) (agg !! mr_match_id row) in
  <[mr_match_id row :=
      (cur.1 + num_or (mr_team1_rounds row) 0,
       cur.2 + num_or (mr_team2_rounds row) 0)]> agg.

Definition roundAgg (maps : list MapRow) : gmap N (Z * Z) :=
  foldl add_map ∅ maps.

(** Score resolution of one match: each side takes the summed rounds when
    that sum is positive and the stored field otherwise. *)
Definition scores (agg : gmap N (Z * Z)) (m : Match) : Z * Z :=
  let a := default (0, 0) (agg !! m_id m) in
  (if 0 <? a.1 then a.1 else num_or (m_score_t1 m) 0,
   if 0 <? a.2 then a.2 else num_or (m_score_t2 m) 0).

Definition played (agg : gmap N (Z * Z)) (m : Match) : bool :=
  let '(score_t1, score_t2) := scores agg m in
  String.eqb (toLowerCase (str_or (m_status m) "")) "completed"
  || (0 <? score_t1 + score_t2)
  || (0 <? num_or (m_maps_played m) 0)
  || (num_or (m_is_forfeit m) 0 =? 1).

(** The body of [regs.forEach]. The rows [t1] and [t2] are objects of the
    shared table [byTeam]; every assignment is an update of that table at
    the team's key, so a match of a team against itself updates one row
    twice, as the aliased objects do. *)
Definition account (agg : gmap N (Z * Z)) (byTeam : gmap N StandingRow)
    (m : Match) : gmap N StandingRow :=
  match m_team1_id m, m_team2_id m with
  | Some k1, Some k2 =>
    match byTeam !! k1, byTeam !! k2 with
    | Some _, Some _ =>
      let '(score_t1, score_t2) := scores agg m in
      if played agg m then
        let p1 := if score_t2 <? score_t1 then 15 else Z.min score_t1 12 in
        let p2 := if score_t1 <? score_t2 then 15 else Z.min score_t2 12 in
        let b := alter (add_played 1) k1 byTeam in
        let b := alter (add_played 1) k2 b in
        let b := alter (add_points p1) k1 b in
        let b := alter (add_points p2) k2 b in
        let b := alter (add_pd (score_t1 - score_t2)) k1 b in
        let b := alter (add_pd (score_t2 - score_t1)) k2 b in
        if score_t2 <? score_t1 then
          alter (add_losses 1) k2 (alter (add_wins 1) k1 b)
        else if score_t1 <? score_t2 then
          alter (add_losses 1) k1 (alter (add_wins 1) k2 b)
        else b
      else
        alter (add_remaining 1) k2 (alter (add_remaining 1) k1 byTeam)
    | _, _ => byTeam
    end
  | _, _ => byTeam
  end.

(** The comparator of [rows.sort]; a negative value puts [a] first. *)
Definition compare_rows (a b : StandingRow) : Z :=
  if negb (r_points b =? r_points a) then r_points b - r_points a
  else r_pd b - r_pd a.

(** [Array.prototype.sort] is stable: a row is placed before the first
    row it does not have to follow. *)
Fixpoint insert_row (a : StandingRow) (l : list StandingRow) : list StandingRow :=
  match l with
  | [] => [a]
  | b :: l' => if compare_rows a b <=? 0 then a :: b :: l' else b :: insert_row a l'
  end.

Definition sort_rows (l : list StandingRow) : list StandingRow :=
  foldr insert_row [] l.

(** [sorted[5]?.points ?? 0] *)
Definition sixth_points (sorted : list StandingRow) : Z :=
  default 0 (r_points <$> sorted !! 5%nat).

Definition mark (sixth : Z) (r : StandingRow) : StandingRow :=
  set_eliminated (r_points r + r_remaining r * 15 <? sixth) r.

Definition computeStandings (teams : list Team) (matches : list Match)
    (maps : list MapRow) : list StandingRow :=
  let byTeam := foldl (λ b t, <[t_id t := blank t]> b) ∅ teams in
  let regs := List.filter is_regular matches in
  let agg := roundAgg maps in
  let byTeam := foldl (account agg) byTeam regs in
  let sorted := sort_rows (Object_values byTeam) in
  mark (sixth_points sorted) <$> sorted.

(** The standings page splits the rows by group, keeping their order:
    the table of a group is the sub-list of the rows filed under its key
    [r.group_name || "A"]. *)
Definition group_key (r : StandingRow) : string :=
  str_or (Some (r_group_name r)) "A".

Definition group_table (rows : list StandingRow) (g : string) : list StandingRow :=
  List.filter (λ r, String.eqb (group_key r) g) rows.

(** The elimination rule in the words of the specification: the
    threshold of a row is the points of the sixth row of the table of
    the row's own group. *)
Definition spec_eliminated (rows : list StandingRow) (r : StandingRow) : bool :=
  r_points r + r_remaining r * 15 <? sixth_points (group_table rows (group_key r)).

(** The map rows of a match and their summed rounds. *)
Definition match_rows (maps : list MapRow) (k : N) : list MapRow :=
  List.filter (λ row, (mr_match_id row =? k)%N) maps.

Definition summed_rounds (rows : list MapRow) : Z * Z :=
  foldl (λ acc row, (acc.1 + num_or (mr_team1_rounds row) 0,
                     acc.2 + num_or (mr_team2_rounds row) 0)) (0, 0) rows.

(** Score resolution in the words of the specification: the summed
    rounds of the match's map rows when it has any, the stored fields
    otherwise. *)
Definition spec_scores (maps : list MapRow) (m : Match) : Z * Z :=
  match match_rows maps (m_id m) with
  | [] => (num_or (m_score_t1 m) 0, num_or (m_score_t2 m) 0)
  | rows => summed_rounds rows
  end.

End Standings.

(** ** The tables behind the admin routes *)

Module DB.
Import JS.

(** A row of [matches]. *)
Record MatchRow := mkMatchRow {
  mid : N;
  week : option Z;
  group_name : option string;
  team1_id : option N;
  team2_id : option N;
  status : option string;
  format : option string;
  score_t1 : option Z;
  score_t2 : option Z;
  maps_played : option Z;
  winner_id : option N;
  match_type : option string;
  playoff_round : option Z;
  bracket_pos : option Z;
  bracket_label : option string;
  is_forfeit : option Z
}.

(** A row of [match_maps]. *)
Record MapResult := mkMapResult {
  map_match_id : N;
  map_index : Z;
  map_name : string;
  map_team1_rounds : option Z;
  map_team2_rounds : option Z;
  map_winner_id : option N;
  map_is_forfeit : Z
}.

Record Db := mkDb {
  match_maps : list MapResult;
  matches : list MatchRow
}.

(** The object given to [.update(...)]: [None] is a key the object does
    not have (or holds [undefined], which the JSON body drops), so the
    column keeps its value. *)
Record Patch := mkPatch {
  p_team1_id : option (option N);
  p_team2_id : option (option N);
  p_status : option (option string);
  p_format : option (option string);
  p_score_t1 : option (option Z);
  p_score_t2 : option (option Z);
  p_maps_played : option (option Z);
  p_winner_id : option (option N);
  p_is_forfeit : option (option Z)
}.

Definition no_change : Patch :=
  mkPatch None None None None None None None None None.

(** [{ team1_id: t }] and [{ team2_id: t }] *)
Definition team1_patch (t : option N) : Patch :=
  mkPatch (Some t) None None None None None None None None.

Definition team2_patch (t : option N) : Patch :=
  mkPatch None (Some t) None None None None None None None.

Definition apply_patch (p : Patch) (r : MatchRow) : MatchRow :=
  mkMatchRow (mid r) (week r) (group_name r)
    (default (team1_id r) (p_team1_id p))
    (default (team2_id r) (p_team2_id p))
    (default (status r) (p_status p))
    (default (format r) (p_format p))
    (default (score_t1 r) (p_score_t1 p))
    (default (score_t2 r) (p_score_t2 p))
    (default (maps_played r) (p_maps_played p))
    (default (winner_id r) (p_winner_id p))
    (match_type r) (playoff_round r) (bracket_pos r) (bracket_label r)
    (default (is_forfeit r) (p_is_forfeit p)).

(** [from('matches').update(p).eq('id', k)] *)
Definition update_eq_id (k : N) (p : Patch) (ms : list MatchRow) : list MatchRow :=
  (λ r, if (mid r =? k)%N then apply_patch p r else r) <$> ms.

(** The key the identity column gives to the next inserted row. *)
Definition fresh_id (ms : list MatchRow) : N :=
  N.succ (foldr N.max 0%N (mid <$> ms)).

(** [from('matches').insert(row)], the row given without its key. *)
Definition insert (row : N → MatchRow) (ms : list MatchRow) : list MatchRow :=
  ms ++ [row (fresh_id ms)].

(** The row both creation sites insert for a playoff slot; the columns
    they leave out are null. *)
Definition playoff_row (wk : Z) (t1 t2 : option N) (round pos : Z) (k : N) : MatchRow :=
  mkMatchRow k (Some wk) (Some "Playoffs") t1 t2 (Some "scheduled") (Some "BO3")
    None None (Some 0) None (Some "playoff") (Some round) (Some pos)
    (Some ("R" +:+ pretty round +:+ " #" +:+ pretty pos)) None.

(** The filter [.eq('match_type','playoff').eq('playoff_round', round)
    .eq('bracket_pos', pos)]. *)
Definition is_slot (round pos : Z) (r : MatchRow) : bool :=
  bool_decide (match_type r = Some "playoff")
  && bool_decide (playoff_round r = Some round)
  && bool_decide (bracket_pos r = Some pos).

(** [.limit(1)] on that filter: the first row in table order. *)
Definition slot_match (round pos : Z) (ms : list MatchRow) : option MatchRow :=
  List.find (is_slot round pos) ms.

(** [.single()]: the row when the filter leaves exactly one. *)
Definition single {A} (l : list A) : option A :=
  match l with
  | [x] => Some x
  | _ => None
  end.

End DB.

(** ** Saving a map result: outcome of the match and bracket propagation *)

Module MapSave.
Import JS DB.

(** [mapData] of the request body. *)
Record MapData := mkMapData {
  index : Z;
  name : string;
  t1_rounds : option Z;
  t2_rounds : option Z;
  md_winner_id : option N;
  md_is_forfeit : bool
}.

Inductive Response :=
  | Ok
  | Unauthorized
  | BadRequest.

Definition map_row (matchId : N) (d : MapData) : MapResult :=
  mkMapResult matchId (index d) (name d) (t1_rounds d) (t2_rounds d)
    (md_winner_id d) (if md_is_forfeit d then 1 else 0).

(** [allMaps.filter(m => m.winner_id === team).length] *)
Definition wins (team : option N) (allMaps : list MapResult) : Z :=
  Z.of_nat (length (List.filter (λ m, strict_eq (map_winner_id m) team) allMaps)).

Definition finalWinner (matchInfo : MatchRow) (allMaps : list MapResult) : option N :=
  let t1Wins := wins (team1_id matchInfo) allMaps in
  let t2Wins := wins (team2_id matchInfo) allMaps in
  if t2Wins <? t1Wins then team1_id matchInfo
  else if t1Wins <? t2Wins then team2_id matchInfo
  else None.

(** The totals written onto the match. *)
Definition payload (matchInfo : MatchRow) (allMaps : list MapResult) : Patch :=
  mkPatch None None (Some (Some "completed")) None
    (Some (Some (wins (team1_id matchInfo) allMaps)))
    (Some (Some (wins (team2_id matchInfo) allMaps)))
    (Some (Some (Z.of_nat (length allMaps))))
    (Some (finalWinner matchInfo allMaps))
    None.

(** The [updates] object built for an existing successor match. *)
Definition updates (nm : MatchRow) (winnerTeam : N) : Patch :=
  if negb (truthy (team1_id nm)) then team1_patch (Some winnerTeam)
  else if negb (truthy (team2_id nm)) then team2_patch (Some winnerTeam)
  else no_change.

(** Lines 75 to 111: the winner of a playoff match goes to the match of
    the next round at the same bracket position. *)
Definition propagate (matchInfo : MatchRow) (winner : option N)
    (ms : list MatchRow) : list MatchRow :=
  match winner with
  | Some winnerTeam =>
    if bool_decide (match_type matchInfo = Some "playoff") && truthy winner then
      let round := num_or (playoff_round matchInfo) 1 in
      let pos := num_or (bracket_pos matchInfo) 0 in
      if negb (pos =? 0) then
        match slot_match (round + 1) pos ms with
        | Some nm =>
          let u := updates nm winnerTeam in
          if truthy (mjoin (p_team1_id u)) || truthy (mjoin (p_team2_id u))
          then update_eq_id (mid nm) u ms
          else ms
        | None =>
          insert (playoff_row (num_or (week matchInfo) 0) None (Some winnerTeam)
                    (round + 1) pos) ms
        end
      else ms
    else ms
  | None => ms
  end.

(** The two deletes and the insert on [match_maps]: the row of the map
    index is replaced. *)
Definition save_map (matchId : N) (d : MapData) (maps : list MapResult)
    : list MapResult :=
  List.filter
    (λ m, negb ((map_match_id m =? matchId)%N && (map_index m =? index d)))
    maps
  ++ [map_row matchId d].

(** [from('match_maps').select('winner_id').eq('match_id', matchId)] *)
Definition maps_of (matchId : N) (maps : list MapResult) : list MapResult :=
  List.filter (λ m, (map_match_id m =? matchId)%N) maps.

(** The handler. The tables [match_stats_map] and [pending_matches] and
    the columns copied from a pending request are outside the state
    modelled here; every query is taken to succeed. *)
Definition POST (authorized : bool) (matchId : N) (mapData : option MapData)
    (db : Db) : Db * Response :=
  if negb authorized then (db, Unauthorized) else
  match mapData with
  | None => (db, BadRequest)
  | Some d =>
    if (matchId =? 0)%N then (db, BadRequest) else
    let maps' := save_map matchId d (match_maps db) in
    let allMaps := maps_of matchId maps' in
    match single (List.filter (λ r, (mid r =? matchId)%N) (matches db)) with
    | Some matchInfo =>
      let ms := update_eq_id matchId (payload matchInfo allMaps) (matches db) in
      (mkDb maps' (propagate matchInfo (finalWinner matchInfo allMaps) ms), Ok)
    | None => (mkDb maps' (matches db), Ok)
    end
  end.

(** The maps of the match that a save of [d] keeps: those of another
    map index. *)
Definition other_maps (matchId : N) (d : MapData) (maps : list MapResult)
    : list MapResult :=
  List.filter
    (λ m, (map_match_id m =? matchId)%N && negb (map_index m =? index d)) maps.

(** The successor slot of a match: the next round (round 1 when the
    match has none) at the same position (0 when it has none). *)
Definition next_round (info : MatchRow) : Z := num_or (playoff_round info) 1 + 1.
Definition same_pos (info : MatchRow) : Z := num_or (bracket_pos info) 0.

(** Two rows that agree on the key and on the outcome columns. *)
Definition same_outcome (r r0 : MatchRow) : Prop :=
  mid r = mid r0 ∧ status r = status r0 ∧ winner_id r = winner_id r0
  ∧ score_t1 r = score_t1 r0 ∧ score_t2 r = score_t2 r0
  ∧ maps_played r = maps_played r0.

End MapSave.

(** ** The update route of the matches table *)

Module MatchUpdate.
Import JS DB MapSave.

(** The value a body gives for [is_forfeit]: a boolean, or what the
    column stores (a number or null). *)
Inductive Flag :=
  | FlagBool (b : bool)
  | FlagNum (z : option Z).

(** The [update] object of the body, with a key for every column of
    [matches]; [None] is a key the object does not have. A value is
    taken to have the type of its column, and [id] to be a number. *)
Record Update := mkUpdate {
  u_id : option N;
  u_week : option (option Z);
  u_group_name : option (option string);
  u_team1_id : option (option N);
  u_team2_id : option (option N);
  u_status : option (option string);
  u_format : option (option string);
  u_score_t1 : option (option Z);
  u_score_t2 : option (option Z);
  u_maps_played : option (option Z);
  u_winner_id : option (option N);
  u_match_type : option (option string);
  u_playoff_round : option (option Z);
  u_bracket_pos : option (option Z);
  u_bracket_label : option (option string);
  u_is_forfeit : option Flag
}.

(** The object given to [.update(...)]: every key of [update], the
    value of [is_forfeit] a number or null. *)
Record Columns := mkColumns {
  k_id : option N;
  k_week : option (option Z);
  k_group_name : option (option string);
  k_team1_id : option (option N);
  k_team2_id : option (option N);
  k_status : option (option string);
  k_format : option (option string);
  k_score_t1 : option (option Z);
  k_score_t2 : option (option Z);
  k_maps_played : option (option Z);
  k_winner_id : option (option N);
  k_match_type : option (option string);
  k_playoff_round : option (option Z);
  k_bracket_pos : option (option Z);
  k_bracket_label : option (option string);
  k_is_forfeit : option (option Z)
}.

(** [upd]: the copy of [update] with a boolean [is_forfeit] turned into
    1 or 0. *)
Definition upd (u : Update) : Columns :=
  mkColumns (u_id u) (u_week u) (u_group_name u) (u_team1_id u)
    (u_team2_id u) (u_status u) (u_format u) (u_score_t1 u) (u_score_t2 u)
    (u_maps_played u) (u_winner_id u) (u_match_type u) (u_playoff_round u)
    (u_bracket_pos u) (u_bracket_label u)
    (match u_is_forfeit u with
     | Some (FlagBool b) => Some (Some (if b then 1 else 0))
     | Some (FlagNum z) => Some z
     | None => None
     end).

(** The row after [.update(c)]: the columns that [c] names take its
    values, the key included. *)
Definition write (c : Columns) (r : MatchRow) : MatchRow :=
  mkMatchRow (default (mid r) (k_id c))
    (default (week r) (k_week c))
    (default (group_name r) (k_group_name c))
    (default (team1_id r) (k_team1_id c))
    (default (team2_id r) (k_team2_id c))
    (default (status r) (k_status c))
    (default (format r) (k_format c))
    (default (score_t1 r) (k_score_t1 c))
    (default (score_t2 r) (k_score_t2 c))
    (default (maps_played r) (k_maps_played c))
    (default (winner_id r) (k_winner_id c))
    (default (match_type r) (k_match_type c))
    (default (playoff_round r) (k_playoff_round c))
    (default (bracket_pos r) (k_bracket_pos c))
    (default (bracket_label r) (k_bracket_label c))
    (default (is_forfeit r) (k_is_forfeit c)).

(** [from('matches').update(c).eq('id', k)] *)
Definition update_where_id (k : N) (c : Columns) (ms : list MatchRow)
    : list MatchRow :=
  (λ r, if (mid r =? k)%N then write c r else r) <$> ms.

(** The handler; the query is taken to succeed. *)
Definition POST (authorized : bool) (id : option N) (update : option Update)
    (ms : list MatchRow) : list MatchRow * Response :=
  if negb authorized then (ms, Unauthorized) else
  match id, update with
  | Some k, Some u =>
    if negb (truthy id) then (ms, BadRequest)
    else (update_where_id k (upd u) ms, Ok)
  | _, _ => (ms, BadRequest)
  end.


End MatchUpdate.

(** ** The admin page: bracket editor and forfeit save *)

Module Admin.
Import JS DB.

(** Modelled from the spec: [getPlayoffMatches] of [lib/data], whose
    source is missing, is [listMatches(filter)] with the filter
    "playoff"; it feeds the [matches] property of the editor. *)
Definition getPlayoffMatches (ms : list MatchRow) : list MatchRow :=
  List.filter (λ r, bool_decide (match_type r = Some "playoff")) ms.

(** The rows the "Create Round 1 Matches" button sends: positions
    [existing + 1] to [8], where [existing] counts the round-1 matches. *)
Definition round1_payload (matches : list MatchRow) : list (N → MatchRow) :=
  let existing :=
    length (List.filter (λ m, bool_decide (playoff_round m = Some 1)) matches) in
  let needed := Z.max 0 (8 - Z.of_nat existing) in
  if 0 <? needed then
    (λ i, playoff_row 0 None None 1 (Z.of_nat i))
      <$> seq (existing + 1) (8 - existing)
  else [].

(** Modelled from the spec: the route [/api/admin/matches/bulk], whose
    source is missing, is [createBracketMatch] for every row of the
    body, in order. *)
Definition bulk_insert (rows : list (N → MatchRow)) (ms : list MatchRow) : list MatchRow :=
  foldl (λ acc row, insert row acc) ms rows.

Definition createRound1 (ms : list MatchRow) : list MatchRow :=
  bulk_insert (round1_payload (getPlayoffMatches ms)) ms.

(** A bracket position as the column holds it. *)
Definition slot (i : nat) : option Z := Some (Z.of_nat i).

(** The positions of the round-1 playoff matches, in table order. *)
Definition round1_positions (ms : list MatchRow) : list (option Z) :=
  bracket_pos
    <$> List.filter (λ m, bool_decide (playoff_round m = Some 1)) (getPlayoffMatches ms).








(** An entry of the match list of the score editor: the key and the two
    team keys are all the forfeit save reads. *)
Record MatchEntry := mkEntry {
  e_id : N;
  e_team1_id : option N;
  e_team2_id : option N
}.

(** The calls the forfeit save makes on [lib/data]. *)
Inductive Call :=
  | ClearMatchDetails (matchId : N)
  | UpdateMatch (matchId : N) (update : Patch).

(** [saveForfeitMatch], a function of the editor state it reads. The
    update route stores the boolean [is_forfeit: true] as [1]; a
    [winner_id] that is [undefined] (no selected entry) is dropped from
    the body. *)
Definition saveForfeitMatch (matchId : N) (forfeit : bool) (format : string)
    (allMatches : list MatchEntry) : list Call :=
  if (matchId =? 0)%N then [] else
  let sel := List.find (λ m, (e_id m =? matchId)%N) allMatches in
  let s1 := if forfeit then 13 else 0 in
  let s2 := if forfeit then 0 else 13 in
  let winner_id := if s2 <? s1 then e_team1_id <$> sel else e_team2_id <$> sel in
  [ClearMatchDetails matchId;
   UpdateMatch matchId
     (mkPatch None None (Some (Some "completed")) (Some (Some format))
        (Some (Some s1)) (Some (Some s2)) (Some (Some 0)) winner_id
        (Some (Some 1)))].

(** The "Save Forfeit Match" button: [disabled] unless a match is
    selected, the forfeit box is ticked and no save is running; a
    disabled button does not call its handler. *)
Definition save_forfeit_button (matchId : N) (forfeit saving : bool)
    (format : string) (allMatches : list MatchEntry) : list Call :=
  if (matchId =? 0)%N || negb forfeit || saving then []
  else saveForfeitMatch matchId forfeit format allMatches.

End Admin.

(** ** Notions used to state properties of the standings *)

Module Tables.
Import JS Standings.

(** What one match adds to the counters of a row. *)
Record Delta := mkDelta {
  d_played : Z;
  d_wins : Z;
  d_losses : Z;
  d_points : Z;
  d_pd : Z;
  d_remaining : Z
}.

Definition bump (d : Delta) (r : StandingRow) : StandingRow :=
  mkRow (r_id r) (r_name r) (r_group_name r) (r_played r + d_played d)
        (r_wins r + d_wins d) (r_losses r + d_losses d)
        (r_points r + d_points d) (r_pd r + d_pd d)
        (r_remaining r + d_remaining d) (r_eliminated r).

(** The additions of a played match for the side that scored [mine]. *)
Definition result_delta (mine theirs : Z) : Delta :=
  mkDelta 1 (if theirs <? mine then 1 else 0) (if mine <? theirs then 1 else 0)
    (if theirs <? mine then 15 else Z.min mine 12) (mine - theirs) 0.

(** The additions of a match still to be played. *)
Definition pending_delta : Delta := mkDelta 0 0 0 0 0 1.

Definition side_delta (agg : gmap N (Z * Z)) (m : Match) (first : bool) : Delta :=
  if played agg m then
    if first then result_delta (scores agg m).1 (scores agg m).2
    else result_delta (scores agg m).2 (scores agg m).1
  else pending_delta.

(** The sum of a column of a table. *)
Definition total (f : StandingRow → Z) (rows : list StandingRow) : Z :=
  foldr (λ r acc, f r + acc) 0 rows.

(** The order of the table: more points first, and among equal points
    the larger differential first. *)
Definition ranked_before (a b : StandingRow) : Prop :=
  r_points b < r_points a ∨ (r_points b = r_points a ∧ r_pd b ≤ r_pd a).

(** Counters that fit together. *)
Definition sound_row (r : StandingRow) : Prop :=
  0 ≤ r_wins r ∧ 0 ≤ r_losses r ∧ r_wins r + r_losses r ≤ r_played r
  ∧ 0 ≤ r_remaining r
  ∧ r_points r ≤ 15 * r_wins r + 12 * (r_played r - r_wins r).

(** The table [byTeam] after the first loop, and after the loop over
    the regular matches. *)
Definition blank_table (teams : list Team) : gmap N StandingRow :=
  foldl (λ b t, <[t_id t := blank t]> b) ∅ teams.

Definition counted (teams : list Team) (matches : list Match)
    (maps : list MapRow) : gmap N StandingRow :=
  foldl (account (roundAgg maps)) (blank_table teams)
    (List.filter is_regular matches).

(** The names of the properties that the empty object [{}] inherits from
    [Object.prototype]. Under such a name [groups[k]] is a function (the
    prototype itself for [__proto__]) before anything is stored: a truthy
    value without a [push] method. *)
Definition inherited : list string :=
  ["constructor"; "hasOwnProperty"; "isPrototypeOf"; "propertyIsEnumerable";
   "toLocaleString"; "toString"; "valueOf"; "__proto__"; "__defineGetter__";
   "__defineSetter__"; "__lookupGetter__"; "__lookupSetter__"].

(** One turn of [rows.forEach] in [getServerSideProps] of the standings
    page, [None] standing for the [TypeError] that ends the function: a
    row whose key is an inherited name makes [groups[k].push(r)] throw;
    any other row is pushed onto the list kept under its key. *)
Definition push_row (groups : option (gmap string (list StandingRow)))
    (r : StandingRow) : option (gmap string (list StandingRow)) :=
  match groups with
  | Some gs =>
    let k := group_key r in
    if bool_decide (k ∈ inherited) then None
    else Some (<[k := default [] (gs !! k) ++ [r]]> gs)
  | None => None
  end.

(** The object [groups] the page is rendered from, or the exception. *)
Definition groups (rows : list StandingRow)
    : option (gmap string (list StandingRow)) :=
  foldl push_row (Some ∅) rows.

(** The object that the loop builds when no turn throws. *)
Definition group_rows (rows : list StandingRow) : gmap string (list StandingRow) :=
  foldl (λ groups r,
           <[group_key r := default [] (groups !! group_key r) ++ [r]]> groups)
        ∅ rows.

(** The integers that a JavaScript number holds exactly. The sum of two
    of them is computed exactly when it lies in this range again, so a
    calculation all of whose sums stay in the range gives the same
    numbers on JavaScript numbers as on integers. *)
Definition safe (z : Z) : Prop := - 2 ^ 53 ≤ z ≤ 2 ^ 53.

(** A row, and what a match adds to a row, with the six counters
    between [-B] and [B]. *)
Definition row_within (B : Z) (r : StandingRow) : Prop :=
  - B ≤ r_played r ≤ B ∧ - B ≤ r_wins r ≤ B ∧ - B ≤ r_losses r ≤ B
  ∧ - B ≤ r_points r ≤ B ∧ - B ≤ r_pd r ≤ B ∧ - B ≤ r_remaining r ≤ B.

Definition delta_within (B : Z) (d : Delta) : Prop :=
  - B ≤ d_played d ≤ B ∧ - B ≤ d_wins d ≤ B ∧ - B ≤ d_losses d ≤ B
  ∧ - B ≤ d_points d ≤ B ∧ - B ≤ d_pd d ≤ B ∧ - B ≤ d_remaining d ≤ B.

Definition safe_row (r : StandingRow) : Prop :=
  safe (r_played r) ∧ safe (r_wins r) ∧ safe (r_losses r)
  ∧ safe (r_points r) ∧ safe (r_pd r) ∧ safe (r_remaining r).

(** Inputs on which the sums of the calculator stay in that range: at
    most [2^15] map rows and [2^15] matches, with rounds and stored
    scores between [-2^20] and [2^20]. *)
Definition small (x : option Z) : Prop := - 2 ^ 20 ≤ num_or x 0 ≤ 2 ^ 20.

Definition small_maps (maps : list MapRow) : Prop :=
  Z.of_nat (length maps) ≤ 2 ^ 15
  ∧ Forall (λ row, small (mr_team1_rounds row) ∧ small (mr_team2_rounds row))
      maps.

Definition small_matches (matches : list Match) : Prop :=
  Z.of_nat (length matches) ≤ 2 ^ 15
  ∧ Forall (λ m, small (m_score_t1 m) ∧ small (m_score_t2 m)) matches.

(** The [metrics] object of the teams page: points and differential
    under the id of the row. *)
Definition metrics (rows : list StandingRow) : gmap N (Z * Z) :=
  foldl (λ acc r, <[r_id r := (r_points r, r_pd r)]> acc) ∅ rows.

End Tables.

(** ** The cells of the bracket editor *)

Module Editor.
Import JS DB MapSave Admin MatchUpdate.

(** The [rounds] array: the number of a round and its [slots]. *)
Definition rounds : list (Z * nat) :=
  [(1, 8%nat); (2, 8%nat); (3, 4%nat); (4, 2%nat); (5, 1%nat)].

(** [getMatchAt], on the [matches] property of the editor. *)
Definition getMatchAt (matches : list MatchRow) (roundId pos : Z) : option MatchRow :=
  List.find
    (λ m, bool_decide (playoff_round m = Some roundId)
          && bool_decide (bracket_pos m = Some pos))
    matches.

(** The cells the editor renders, round by round: for every position
    from 1 to [slots], the match found there or an empty slot. *)
Definition cells (matches : list MatchRow) : list (Z * Z * option MatchRow) :=
  r ← rounds;
  (λ idx, let pos := Z.of_nat idx + 1 in (r.1, pos, getMatchAt matches r.1 pos))
    <$> seq 0 r.2.

(** Whether the editor has a cell for a place of the bracket. *)
Definition has_cell (round pos : Z) : bool :=
  existsb (λ r, (r.1 =? round) && (1 <=? pos) && (pos <=? Z.of_nat r.2)) rounds.

(** The two values of [which]. *)
Inductive Side := Team1 | Team2.

(** [{ [which]: teamId }] *)
Definition side_update (which : Side) (teamId : N) : Update :=
  match which with
  | Team1 =>
    mkUpdate None None None (Some (Some teamId)) None None None None None
      None None None None None None None
  | Team2 =>
    mkUpdate None None None None (Some (Some teamId)) None None None None
      None None None None None None None
  end.

(** [handleAssign]: the choice made in a select of a cell, sent through
    [updateMatch] to the update route; the option "TBD" has the value 0. *)
Definition handleAssign (matchId : N) (which : Side) (teamId : N)
    (ms : list MatchRow) : list MatchRow :=
  (MatchUpdate.POST true (Some matchId) (Some (side_update which teamId)) ms).1.

(** What [{ [which]: teamId }] writes, as a patch of the two sides. *)
Definition side_patch (which : Side) (teamId : N) : Patch :=
  match which with
  | Team1 => team1_patch (Some teamId)
  | Team2 => team2_patch (Some teamId)
  end.

(** The side of a row that [which] names. *)
Definition side (which : Side) (r : MatchRow) : option N :=
  match which with
  | Team1 => team1_id r
  | Team2 => team2_id r
  end.

End Editor.

(** ** The rate limiter of the middleware *)

Module Middleware.

Record Bucket := mkBucket {
  count : Z;
  reset : Z
}.

(** [allow] on the module-level map [buckets], the reading of the clock
    given as [now]: the map after the call and the answer. *)
Definition allow (ip key : string) (limit windowMs now : Z)
    (buckets : gmap string Bucket) : gmap string Bucket * bool :=
  let k := ip +:+ ":" +:+ key in
  match buckets !! k with
  | Some b =>
    if reset b <? now then (<[k := mkBucket 1 (now + windowMs)]> buckets, true)
    else if count b <? limit
    then (<[k := mkBucket (count b + 1) (reset b)]> buckets, true)
    else (buckets, false)
  | None => (<[k := mkBucket 1 (now + windowMs)]> buckets, true)
  end.

(** What the middleware answers: the request goes on (with the security
    headers set) or is refused with status 429. *)
Inductive Answer :=
  | Next
  | RateLimit.

(** [req.ip ?? req.headers.get('x-forwarded-for') ?? 'unknown'] *)
Definition client (ip forwarded : option string) : string :=
  match ip, forwarded with
  | Some a, _ => a
  | None, Some a => a
  | None, None => "unknown"
  end.

Definition startsWith (path p : string) : bool := String.prefix p path.

Definition middleware (ip forwarded : option string) (path : string) (now : Z)
    (buckets : gmap string Bucket) : gmap string Bucket * Answer :=
  let login :=
    if startsWith path "/api/admin/login"
    then allow (client ip forwarded) "admin-login" 5 (10 * 60 * 1000) now buckets
    else (buckets, true) in
  if negb login.2 then (login.1, RateLimit) else
  let github :=
    if startsWith path "/api/github/"
    then allow (client ip forwarded) "github" 60 (60 * 1000) now login.1
    else (login.1, true) in
  if negb github.2 then (github.1, RateLimit) else (github.1, Next).

(** A series of calls of [allow] for one client and one key, at the
    given readings of the clock: the map at the end and the answers. *)
Fixpoint calls (ip key : string) (limit windowMs : Z) (times : list Z)
    (buckets : gmap string Bucket) : gmap string Bucket * list bool :=
  match times with
  | [] => (buckets, [])
  | now :: rest =>
    let first := allow ip key limit windowMs now buckets in
    let others := calls ip key limit windowMs rest first.1 in
    (others.1, first.2 :: others.2)
  end.

(** A series of requests of one client through the middleware. *)
Fixpoint requests (ip forwarded : option string) (reqs : list (string * Z))
    (buckets : gmap string Bucket) : gmap string Bucket * list Answer :=
  match reqs with
  | [] => (buckets, [])
  | (path, now) :: rest =>
    let first := middleware ip forwarded path now buckets in
    let others := requests ip forwarded rest first.1 in
    (others.1, first.2 :: others.2)
  end.

End Middleware.

(** ** Example inputs *)

Module Examples.
Import JS Standings DB MapSave Admin.

(** Example season: in group A, teams 1, 3 and 5 have beaten teams 2, 4
    and 6 by 13-7; in group B, which has two teams, team 8 has beaten
    team 7 by 13-0. No match is left to play. *)
Definition two_groups_teams : list Team :=
  [mkTeam 1 "Alpha" "A"; mkTeam 2 "Bravo" "A"; mkTeam 3 "Charlie" "A";
   mkTeam 4 "Delta" "A"; mkTeam 5 "Echo" "A"; mkTeam 6 "Foxtrot" "A";
   mkTeam 7 "Golf" "B"; mkTeam 8 "Hotel" "B"].

Definition result (k a b : N) (s1 s2 : Z) : Match :=
  mkMatch k (Some a) (Some b) (Some "regular") (Some "completed")
    (Some s1) (Some s2) (Some 1) None.

Definition two_groups_matches : list Match :=
  [result 1 1 2 13 7; result 2 3 4 13 7; result 3 5 6 13 7; result 4 8 7 13 0].

(** Example match: the stored score says 1-0, the only map row says 0-13. *)
Definition stale_match : Match :=
  mkMatch 1 (Some 1%N) (Some 2%N) (Some "regular") (Some "completed")
    (Some 1) (Some 0) (Some 1) None.

Definition stale_maps : list MapRow := [mkMapRow 1 (Some 0) (Some 13)].

(** Example bracket: match 1 is the round-1 match at position 1 between
    teams 10 and 20; match 2 is its successor, both sides empty. *)
Definition round1_match : MatchRow :=
  mkMatchRow 1 (Some 0) (Some "Playoffs") (Some 10%N) (Some 20%N)
    (Some "scheduled") (Some "BO3") None None (Some 0) None (Some "playoff")
    (Some 1) (Some 1) (Some "R1 #1") None.

Definition empty_successor : MatchRow := playoff_row 0 None None 2 1 2.

Definition bracket : list MatchRow := [round1_match; empty_successor].

(** A request body for map [i] with the rounds 13-7 for the winner [w],
    written as team 10 sees them. *)
Definition map_won_by (i : Z) (w : option N) : MapData :=
  if bool_decide (w = Some 10%N)
  then mkMapData i "Ascent" (Some 13) (Some 7) w false
  else mkMapData i "Ascent" (Some 7) (Some 13) w false.

(** Example match of the regular season between teams 10 and 20, and
    the tables once its first map is saved for team 10. *)
Definition league_match : MatchRow :=
  mkMatchRow 1 (Some 3) (Some "A") (Some 10%N) (Some 20%N)
    (Some "scheduled") (Some "BO3") None None (Some 0) None (Some "regular")
    None None None None.

Definition one_map_saved : Db :=
  mkDb [mkMapResult 1 0 "Ascent" (Some 13) (Some 7) (Some 10%N) 0] [league_match].

(** Example bracket: a single round-1 match, entered at position 5. *)
Definition lone_round1 : list MatchRow := [playoff_row 0 None None 1 5 1].



(** Example entry of the score editor: match 1, team 10 against team 20. *)
Definition entries : list MatchEntry := [mkEntry 1 (Some 10%N) (Some 20%N)].

End Examples.

(** ** Further example inputs *)

Module Scenarios.
Import JS DB MapSave Admin.

(** Example bracket: the Grand Final (round 5, position 1) between
    teams 10 and 20, the only match of the table. *)
Definition grand_final : MatchRow :=
  mkMatchRow 1 (Some 0) (Some "Playoffs") (Some 10%N) (Some 20%N)
    (Some "scheduled") (Some "BO3") None None (Some 0) None (Some "playoff")
    (Some 5) (Some 1) (Some "R5 #1") None.

(** Example bracket: the round-1 match at position 1 and its successor
    with teams 30 and 40 on its sides. *)
Definition full_successor : MatchRow := playoff_row 0 (Some 30%N) (Some 40%N) 2 1 2.

Definition full_bracket : list MatchRow := [Examples.round1_match; full_successor].

End Scenarios.

(** ** Properties of the standings calculator *)

Module StandingsFacts.
Import JS Standings Examples.

Lemma blank_table_lookup_None (teams : list Team) (b : gmap N StandingRow) (k : N) :
  b !! k = None →
  (∀ t, t ∈ teams → t_id t ≠ k) →
  foldl (λ b t, <[t_id t := blank t]> b) b teams !! k = None.
Proof.
  revert b. induction teams as [|t teams IH]; intros b Hb Hk; simpl; [done|].
  apply IH.
  - rewrite lookup_insert_ne; [done|]. apply Hk. left.
  - intros t' Ht'. apply Hk. by right.
Qed.

Lemma account_lookup_None agg (b : gmap N StandingRow) m k :
  b !! k = None → account agg b m !! k = None.
Proof.
  intros Hb. unfold account.
  destruct (m_team1_id m) as [k1|]; [|done].
  destruct (m_team2_id m) as [k2|]; [|done].
  destruct (b !! k1); [|done]. destruct (b !! k2); [|done].
  destruct (scores agg m) as [s1 s2].
  repeat (case_match; try done); by rewrite !lookup_alter_None.
Qed.

Lemma foldl_account_lookup_None agg ms (b : gmap N StandingRow) k :
  b !! k = None → foldl (account agg) b ms !! k = None.
Proof.
  revert b. induction ms as [|m ms IH]; intros b Hb; simpl; [done|].
  by apply IH, account_lookup_None.
Qed.

Lemma account_unknown agg (b : gmap N StandingRow) m :
  (∀ k, m_team1_id m = Some k → b !! k = None)
  ∨ (∀ k, m_team2_id m = Some k → b !! k = None) →
  account agg b m = b.
Proof.
  intros H. unfold account.
  destruct (m_team1_id m) as [k1|]; [|done].
  destruct (m_team2_id m) as [k2|]; [|done].
  destruct H as [H|H].
  - by rewrite (H k1).
  - rewrite (H k2); [|done]. by destruct (b !! k1).
Qed.

Lemma sixth_points_mark s (l : list StandingRow) :
  sixth_points (mark s <$> l) = sixth_points l.
Proof.
  unfold sixth_points. rewrite list_lookup_fmap.
  by destruct (l !! 5%nat).
Qed.

(** What the calculator does for every input: the flag of a row compares
    its best reachable total with the points of the sixth row of the
    whole returned table. *)
Lemma eliminated_against_whole_table teams matches maps r :
  r ∈ computeStandings teams matches maps →
  r_eliminated r
  = (r_points r + r_remaining r * 15
       <? sixth_points (computeStandings teams matches maps)).
Proof.
  unfold computeStandings. rewrite sixth_points_mark.
  intros (r0 & -> & _)%list_elem_of_fmap. done.
Qed.

(** With all teams in one group the flag is the one of the
    specification. *)
Lemma eliminated_within_single_group teams matches maps g r :
  (∀ r', r' ∈ computeStandings teams matches maps → group_key r' = g) →
  r ∈ computeStandings teams matches maps →
  r_eliminated r = spec_eliminated (computeStandings teams matches maps) r.
Proof.
  intros Hg Hr. rewrite (eliminated_against_whole_table _ _ _ _ Hr).
  unfold spec_eliminated, group_table. rewrite (Hg r Hr).
  set (rows := computeStandings teams matches maps) in *.
  assert (List.filter (λ r0, String.eqb (group_key r0) g) rows = rows) as ->;
    [|done].
  clearbody rows. clear Hr.
  induction rows as [|x rows IH]; simpl; [done|].
  rewrite (Hg x) by left. rewrite String.eqb_refl. f_equal.
  apply IH. intros r' Hr'. apply Hg. by right.
Qed.

(** C1 (evaluation at the failing input): in the example season the
    sixth row of the table of all teams has 7 points, and the calculator
    flags team 7 of group B, which has 0 points and no match left, as
    eliminated. The table of group B has two rows, so that the rule of
    the specification, with threshold 0, leaves team 7 in contention. *)
Theorem eliminated_threshold_ignores_groups :
  let rows := computeStandings two_groups_teams two_groups_matches [] in
  let hotel := mkRow 8 "Hotel" "B" 1 1 0 15 13 0 false in
  let golf := mkRow 7 "Golf" "B" 1 0 1 0 (-13) 0 true in
  rows !! 7%nat = Some golf
  ∧ group_table rows "B" = [hotel; golf]
  ∧ sixth_points (group_table rows "B") = 0
  ∧ sixth_points rows = 7
  ∧ r_eliminated golf = true
  ∧ spec_eliminated rows golf = false.
Proof. vm_compute. repeat split. Qed.

(** The aggregate of a match id is the sum of its map rows, and is
    absent when it has none. *)
Lemma foldl_add_map_lookup maps (agg : gmap N (Z * Z)) k :
  foldl add_map agg maps !! k
  = match match_rows maps k with
    | [] => agg !! k
    | rows =>
      Some (foldl (λ acc row, (acc.1 + num_or (mr_team1_rounds row) 0,
                               acc.2 + num_or (mr_team2_rounds row) 0))
              (default (0, 0) (agg !! k)) rows)
    end.
Proof.
  revert agg. induction maps as [|row maps IH]; intros agg; simpl; [done|].
  rewrite IH. unfold add_map.
  destruct (mr_match_id row =? k)%N eqn:E.
  - apply N.eqb_eq in E. subst k. rewrite lookup_insert_eq. simpl.
    by destruct (match_rows maps (mr_match_id row)).
  - apply N.eqb_neq in E. by rewrite lookup_insert_ne.
Qed.

Lemma roundAgg_lookup maps k :
  default (0, 0) (roundAgg maps !! k) = summed_rounds (match_rows maps k).
Proof.
  unfold roundAgg. rewrite foldl_add_map_lookup, lookup_empty.
  by destruct (match_rows maps k).
Qed.

(** The score of each side of a match is the sum of that side's rounds
    over the map rows of the match when the sum is positive, and the
    stored score field of that side otherwise. *)
Lemma scores_take_positive_sums maps m :
  scores (roundAgg maps) m
  = (let sums := summed_rounds (match_rows maps (m_id m)) in
     (if 0 <? sums.1 then sums.1 else num_or (m_score_t1 m) 0,
      if 0 <? sums.2 then sums.2 else num_or (m_score_t2 m) 0)).
Proof. unfold scores. by rewrite roundAgg_lookup. Qed.

(** The example match has a map row, with rounds 0-13, and a stale
    stored score 1-0: the calculator scores it 1-13, taking the stored 1
    for the side whose rounds sum to zero, where the sums are 0-13, and
    the standings carry the leaked point and differential. *)
Lemma stored_score_leaks_when_rounds_sum_to_zero :
  match_rows stale_maps (m_id stale_match) = stale_maps
  ∧ scores (roundAgg stale_maps) stale_match = (1, 13)
  ∧ spec_scores stale_maps stale_match = (0, 13)
  ∧ (λ r, (r_id r, r_points r, r_pd r))
      <$> computeStandings [mkTeam 1 "Alpha" "A"; mkTeam 2 "Bravo" "A"]
            [stale_match] stale_maps
    = [(2%N, 15, 12); (1%N, 1, -12)].
Proof. vm_compute. repeat split. Qed.

(** C10: a match one of whose team ids is the id of no team of the input
    changes nothing: the table computed with the match anywhere in the
    input list is the table computed without it. *)
Theorem unknown_team_match_contributes_nothing teams ms1 m ms2 maps :
  (∀ t, t ∈ teams → m_team1_id m ≠ Some (t_id t))
  ∨ (∀ t, t ∈ teams → m_team2_id m ≠ Some (t_id t)) →
  computeStandings teams (ms1 ++ m :: ms2) maps
  = computeStandings teams (ms1 ++ ms2) maps.
Proof.
  intros Hm. unfold computeStandings.
  rewrite !List.filter_app. simpl.
  destruct (is_regular m); [|done].
  rewrite !foldl_app. simpl.
  rewrite account_unknown; [done|].
  destruct Hm as [Hm|Hm]; [left|right]; intros k Hk;
    apply foldl_account_lookup_None, blank_table_lookup_None;
    try apply lookup_empty; intros t Ht <-; by apply (Hm t).
Qed.

Lemma unknown_team_match_contributes_nothing_witness :
  computeStandings two_groups_teams
    ([result 1 1 2 13 7] ++ result 9 1 99 13 7 :: [result 2 3 4 13 7]) []
  = computeStandings two_groups_teams
      ([result 1 1 2 13 7] ++ [result 2 3 4 13 7]) [].
Proof.
  apply unknown_team_match_contributes_nothing.
  right. intros t Ht. unfold two_groups_teams in Ht.
  repeat (apply elem_of_cons in Ht as [->|Ht]; [cbv; congruence|]).
  by apply elem_of_nil in Ht.
Defined.

End StandingsFacts.

(** ** Properties of the table operations *)

Module DBFacts.
Import JS DB.

Lemma is_slot_apply_patch round pos p r :
  is_slot round pos (apply_patch p r) = is_slot round pos r.
Proof. reflexivity. Qed.

Lemma mid_apply_patch p r : mid (apply_patch p r) = mid r.
Proof. reflexivity. Qed.

(** An update that does not touch the filtered columns finds the same
    row, updated when it has the key. *)
Lemma find_update_eq_id (P : MatchRow → bool) k p ms :
  (∀ r, P (apply_patch p r) = P r) →
  List.find P (update_eq_id k p ms)
  = (λ r, if (mid r =? k)%N then apply_patch p r else r) <$> List.find P ms.
Proof.
  intros HP. unfold update_eq_id.
  induction ms as [|r ms IH]; simpl; [done|].
  destruct (mid r =? k)%N eqn:E; rewrite ?HP; destruct (P r); simpl;
    rewrite ?E; done.
Qed.

Lemma slot_match_update_eq_id round pos k p ms :
  slot_match round pos (update_eq_id k p ms)
  = (λ r, if (mid r =? k)%N then apply_patch p r else r) <$> slot_match round pos ms.
Proof. apply find_update_eq_id. intros r. apply is_slot_apply_patch. Qed.

Lemma find_snoc {A} (P : A → bool) (l : list A) (x : A) :
  List.find P (l ++ [x])
  = match List.find P l with
    | Some y => Some y
    | None => if P x then Some x else None
    end.
Proof.
  induction l as [|y l IH]; simpl; [done|].
  by destruct (P y).
Qed.

Lemma update_eq_id_no_change k ms : update_eq_id k no_change ms = ms.
Proof.
  unfold update_eq_id. induction ms as [|r ms IH]; [done|].
  rewrite fmap_cons, IH. destruct (mid r =? k)%N; [|done]. by destruct r.
Qed.

Lemma max_mid_ge ms r : r ∈ ms → (mid r ≤ foldr N.max 0 (mid <$> ms))%N.
Proof.
  induction ms as [|x ms IH]; intros Hr; [by apply elem_of_nil in Hr|].
  apply elem_of_cons in Hr as [->|Hr]; rewrite fmap_cons; cbn [foldr].
  - apply N.le_max_l.
  - etrans; [apply IH, Hr | apply N.le_max_r].
Qed.

Lemma mid_lt_fresh_id ms r : r ∈ ms → (mid r < fresh_id ms)%N.
Proof. intros Hr%max_mid_ge. unfold fresh_id. lia. Qed.

End DBFacts.

(** ** Properties of the map save *)

Module MapSaveFacts.
Import JS DB MapSave DBFacts Examples.

Lemma truthy_Some w : w ≠ 0%N → truthy (Some w) = true.
Proof. intros Hw. simpl. by apply negb_true_iff, N.eqb_neq. Qed.

Lemma propagate_unfold info w ms :
  match_type info = Some "playoff" → w ≠ 0%N → same_pos info ≠ 0 →
  propagate info (Some w) ms
  = match slot_match (next_round info) (same_pos info) ms with
    | Some nm =>
      if negb (truthy (team1_id nm)) then update_eq_id (mid nm) (team1_patch (Some w)) ms
      else if negb (truthy (team2_id nm)) then update_eq_id (mid nm) (team2_patch (Some w)) ms
      else ms
    | None =>
      insert (playoff_row (num_or (week info) 0) None (Some w)
                (next_round info) (same_pos info)) ms
    end.
Proof.
  intros Hty Hw Hpos. unfold propagate, next_round, same_pos in *.
  rewrite bool_decide_eq_true_2 by done. rewrite (truthy_Some w Hw). simpl.
  apply Z.eqb_neq in Hpos. rewrite Hpos. simpl.
  destruct (slot_match _ _ ms) as [nm|]; [|done].
  pose proof (truthy_Some w Hw) as Hw'. simpl in Hw'.
  unfold updates.
  destruct (truthy (team1_id nm)), (truthy (team2_id nm)); simpl;
    by rewrite ?Hw'.
Qed.

Lemma propagate_skip info w ms :
  match_type info ≠ Some "playoff" ∨ truthy w = false ∨ same_pos info = 0 →
  propagate info w ms = ms.
Proof.
  intros H. unfold propagate, same_pos in *. destruct w as [w|]; [|done].
  destruct H as [H|[H|H]].
  - by rewrite bool_decide_eq_false_2.
  - rewrite H. by rewrite andb_false_r.
  - rewrite H. simpl. by destruct (_ && _).
Qed.

(** A successor with both sides occupied is a fixed point of the
    propagation. *)
Lemma propagate_full info w ms nm :
  slot_match (next_round info) (same_pos info) ms = Some nm →
  truthy (team1_id nm) = true → truthy (team2_id nm) = true →
  propagate info w ms = ms.
Proof.
  intros Hnm H1 H2. unfold propagate.
  destruct w as [w|]; [|done].
  unfold next_round, same_pos in Hnm.
  repeat (case_match; try done); simplify_eq.
  unfold updates. rewrite H1, H2. apply update_eq_id_no_change.
Qed.

(** From the second run on the propagation changes nothing more: the
    first run fills a side or creates the successor, the second may fill
    the other side, and then both sides are occupied. *)
Lemma propagate_stable_after_two_runs info w ms :
  propagate info w (propagate info w (propagate info w ms))
  = propagate info w (propagate info w ms).
Proof.
  destruct (decide (match_type info = Some "playoff")) as [Hty|Hty];
    [|by rewrite !propagate_skip by (by left)].
  destruct (truthy w) eqn:Htr;
    [|by rewrite !propagate_skip by (right; by left)].
  destruct (decide (same_pos info = 0)) as [Hpos|Hpos];
    [by rewrite !propagate_skip by (right; by right)|].
  destruct w as [w|]; [|done].
  set (R := next_round info). set (P := same_pos info).
  assert (∀ ms' nm' p, slot_match R P ms' = Some nm' →
            slot_match R P (update_eq_id (mid nm') p ms')
            = Some (apply_patch p nm')) as Hupd.
  { intros ms' nm' p Hnm'. rewrite slot_match_update_eq_id, Hnm'. simpl.
    by rewrite N.eqb_refl. }
  assert (∀ ms' nm', slot_match R P ms' = Some nm' →
            truthy (team1_id nm') = true → truthy (team2_id nm') = true →
            propagate info (Some w) ms' = ms') as Hfull
    by (intros; by eapply propagate_full).
  assert (∀ ms' nm', slot_match R P ms' = Some nm' →
            truthy (team1_id nm') = true →
            propagate info (Some w) (propagate info (Some w) ms')
            = propagate info (Some w) ms') as Hhalf.
  { intros ms' nm' Hnm' H1.
    destruct (truthy (team2_id nm')) eqn:H2; [by rewrite !(Hfull ms' nm')|].
    rewrite (propagate_unfold _ _ ms' Hty) by (done || by intros ->).
    fold R P. rewrite Hnm', H1, H2. cbn [negb].
    by apply (Hfull _ (apply_patch (team2_patch (Some w)) nm')); [apply Hupd|..]. }
  rewrite (propagate_unfold _ _ ms Hty) by (done || by intros ->). fold R P.
  destruct (slot_match R P ms) as [nm|] eqn:Hnm.
  - destruct (truthy (team1_id nm)) eqn:H1; cbn [negb].
    + destruct (truthy (team2_id nm)) eqn:H2; cbn [negb].
      * by apply (Hhalf ms nm).
      * by apply (Hhalf _ (apply_patch (team2_patch (Some w)) nm));
          [apply Hupd|..].
    + by apply (Hhalf _ (apply_patch (team1_patch (Some w)) nm)); [apply Hupd|..].
  - set (new := playoff_row (num_or (week info) 0) None (Some w) R P (fresh_id ms)).
    assert (slot_match R P (insert (playoff_row (num_or (week info) 0) None
              (Some w) R P) ms) = Some new) as Hnew.
    { unfold insert, slot_match in *. rewrite find_snoc, Hnm.
      unfold is_slot, playoff_row. simpl. by rewrite !bool_decide_eq_true_2. }
    rewrite (propagate_unfold _ _ (insert _ ms) Hty) by (done || by intros ->).
    fold R P. rewrite Hnew. change (truthy (team1_id new)) with false.
    cbn [negb].
    by apply (Hfull _ (apply_patch (team1_patch (Some w)) new)); [apply Hupd|..].
Qed.

(** C3, as amended: when the successor match exists, the propagation
    writes the winner into [team1_id] if that side is empty, else into
    [team2_id] if that side is empty, every other column and row being
    left as it was; when both sides are occupied it writes nothing,
    so that from then on any number of runs leaves the bracket as it
    is. *)
Theorem propagate_fills_first_empty_side info w ms nm :
  match_type info = Some "playoff" → w ≠ 0%N → same_pos info ≠ 0 →
  slot_match (next_round info) (same_pos info) ms = Some nm →
  (truthy (team1_id nm) = false →
     propagate info (Some w) ms
     = update_eq_id (mid nm) (team1_patch (Some w)) ms)
  ∧ (truthy (team1_id nm) = true → truthy (team2_id nm) = false →
     propagate info (Some w) ms
     = update_eq_id (mid nm) (team2_patch (Some w)) ms)
  ∧ (truthy (team1_id nm) = true → truthy (team2_id nm) = true →
     ∀ n, Nat.iter n (propagate info (Some w)) ms = ms).
Proof.
  intros Hty Hw Hpos Hnm.
  rewrite (propagate_unfold _ _ _ Hty Hw Hpos), Hnm.
  split; [|split].
  - by intros ->.
  - by intros -> ->.
  - intros H1 H2 n. induction n as [|n IH]; [done|].
    rewrite Nat.iter_succ, IH. by apply (propagate_full _ _ _ nm).
Qed.

Lemma propagate_fills_first_empty_side_witness :
  propagate round1_match (Some 10%N) bracket
  = update_eq_id 2 (team1_patch (Some 10%N)) bracket.
Proof.
  refine (proj1 (propagate_fills_first_empty_side round1_match 10 bracket
                   empty_successor _ _ _ _) _);
    [reflexivity | discriminate | discriminate | reflexivity | reflexivity].
Defined.

(** A second run on the example bracket writes the same winner into the
    other side of the successor: two runs of the propagation do not
    leave the bracket of one run, and neither do two saves, be it the
    same map saved again or the two maps of a 2-0 series. *)
Lemma second_propagation_writes_again :
  let once := propagate round1_match (Some 10%N) bracket in
  let twice := propagate round1_match (Some 10%N) once in
  let db := mkDb [] bracket in
  let save i := POST true 1 (Some (map_won_by i (Some 10%N))) in
  let sides ms := (λ r, (team1_id r, team2_id r)) <$> slot_match 2 1 ms in
  sides once = Some (Some 10%N, None)
  ∧ sides twice = Some (Some 10%N, Some 10%N)
  ∧ twice ≠ once
  ∧ matches (save 0 (save 0 db).1).1 ≠ matches (save 0 db).1
  ∧ sides (matches (save 0 db).1) = Some (Some 10%N, None)
  ∧ sides (matches (save 1 (save 0 db).1).1) = Some (Some 10%N, Some 10%N).
Proof. vm_compute. repeat split; discriminate. Qed.

(** C4, as amended: when the completed playoff match has a winner and a
    bracket position other than zero, and no match exists at the next
    round and the same position, the propagation creates that match,
    scheduled, with the winner in [team2_id] and [team1_id] null. *)
Theorem propagate_creates_successor info w ms :
  match_type info = Some "playoff" → w ≠ 0%N → same_pos info ≠ 0 →
  slot_match (next_round info) (same_pos info) ms = None →
  ∃ created,
    propagate info (Some w) ms = ms ++ [created]
    ∧ slot_match (next_round info) (same_pos info) (propagate info (Some w) ms)
      = Some created
    ∧ team1_id created = None
    ∧ team2_id created = Some w
    ∧ status created = Some "scheduled"
    ∧ winner_id created = None.
Proof.
  intros Hty Hw Hpos Hnone.
  rewrite (propagate_unfold _ _ _ Hty Hw Hpos), Hnone. unfold insert.
  eexists. split; [reflexivity|].
  split; [|done].
  unfold slot_match in *. rewrite find_snoc, Hnone.
  unfold is_slot, playoff_row. simpl.
  by rewrite !bool_decide_eq_true_2.
Qed.

Lemma propagate_creates_successor_witness :
  ∃ created,
    propagate round1_match (Some 10%N) [round1_match] = [round1_match] ++ [created]
    ∧ slot_match 2 1 (propagate round1_match (Some 10%N) [round1_match])
      = Some created
    ∧ team1_id created = None
    ∧ team2_id created = Some 10%N
    ∧ status created = Some "scheduled"
    ∧ winner_id created = None.
Proof.
  apply (propagate_creates_successor round1_match 10 [round1_match]);
    [reflexivity | discriminate | discriminate | reflexivity].
Defined.

(** The successor created for the example match holds the winner, team
    10, in [team2_id]; its [team1_id] is null, not the winner, both for
    the propagation alone and for the whole save. *)
Lemma created_successor_has_winner_in_team2 :
  let created := playoff_row 0 None (Some 10%N) 2 1 2 in
  let saved :=
    (POST true 1 (Some (map_won_by 0 (Some 10%N))) (mkDb [] [round1_match])).1 in
  slot_match 2 1 [round1_match] = None
  ∧ propagate round1_match (Some 10%N) [round1_match] = [round1_match; created]
  ∧ slot_match 2 1 (matches saved) = Some created
  ∧ team1_id created = None
  ∧ team2_id created = Some 10%N
  ∧ ¬ (team1_id created = Some 10%N ∧ team2_id created = None).
Proof. vm_compute. repeat split. intros [? _]. discriminate. Qed.

(** The propagation touches the team columns of existing rows only, and
    a row it creates takes a fresh key. *)
Lemma propagate_shape info w ms :
  ∃ (f : MatchRow → MatchRow) (created : list MatchRow),
    propagate info w ms = (f <$> ms) ++ created
    ∧ (∀ r, same_outcome (f r) r)
    ∧ (∀ c, c ∈ created → mid c = fresh_id ms).
Proof.
  assert (∃ (f : MatchRow → MatchRow) (created : list MatchRow),
    ms = (f <$> ms) ++ created ∧ (∀ r, same_outcome (f r) r)
    ∧ (∀ c, c ∈ created → mid c = fresh_id ms)) as Hid.
  { exists id, []. rewrite list_fmap_id, app_nil_r.
    repeat split. intros c Hc. by apply elem_of_nil in Hc. }
  unfold propagate.
  destruct w as [w|]; [|done].
  repeat (case_match; try done).
  - eexists _, []. rewrite app_nil_r. split; [reflexivity|].
    split; [|intros c Hc; by apply elem_of_nil in Hc].
    intros r. unfold updates.
    destruct (mid r =? _)%N; [|done].
    by repeat case_match.
  - exists id, [playoff_row (num_or (week info) 0) None (Some w)
                  (num_or (playoff_round info) 1 + 1)
                  (num_or (bracket_pos info) 0) (fresh_id ms)].
    rewrite list_fmap_id. split; [done|]. split; [done|].
    by intros c ->%list_elem_of_singleton.
Qed.

Lemma single_Some_elem {A} (l : list A) (x : A) : single l = Some x → l = [x].
Proof. destruct l as [|y [|z l]]; simpl; congruence. Qed.

Lemma matchInfo_in_table matchId ms info :
  single (List.filter (λ r, (mid r =? matchId)%N) ms) = Some info →
  info ∈ ms ∧ mid info = matchId.
Proof.
  intros H%single_Some_elem.
  assert (In info (List.filter (λ r, (mid r =? matchId)%N) ms)) as Hin
    by (rewrite H; by left).
  apply List.filter_In in Hin as [Hin Hk].
  split; [by apply list_elem_of_In | by apply N.eqb_eq].
Qed.

Lemma POST_unfold db matchId d info :
  matchId ≠ 0%N →
  single (List.filter (λ r, (mid r =? matchId)%N) (matches db)) = Some info →
  let maps' := save_map matchId d (match_maps db) in
  let allMaps := maps_of matchId maps' in
  POST true matchId (Some d) db
  = (mkDb maps'
       (propagate info (finalWinner info allMaps)
          (update_eq_id matchId (payload info allMaps) (matches db))), Ok).
Proof.
  intros Hk Hinfo. unfold POST. simpl.
  apply N.eqb_neq in Hk. by rewrite Hk, Hinfo.
Qed.

(** After a save the rows of the match carry the totals of its maps. *)
Lemma POST_match_rows db matchId d info :
  matchId ≠ 0%N →
  single (List.filter (λ r, (mid r =? matchId)%N) (matches db)) = Some info →
  let saved := (POST true matchId (Some d) db).1 in
  let allMaps := maps_of matchId (match_maps saved) in
  (∃ r, r ∈ matches saved ∧ mid r = matchId)
  ∧ ∀ r, r ∈ matches saved → mid r = matchId →
      status r = Some "completed"
      ∧ winner_id r = finalWinner info allMaps
      ∧ score_t1 r = Some (wins (team1_id info) allMaps)
      ∧ score_t2 r = Some (wins (team2_id info) allMaps)
      ∧ maps_played r = Some (Z.of_nat (length allMaps)).
Proof.
  intros Hk Hinfo. rewrite (POST_unfold _ _ _ _ Hk Hinfo). simpl.
  set (allMaps := maps_of matchId _).
  set (p := payload info allMaps).
  destruct (matchInfo_in_table _ _ _ Hinfo) as [Hin Hmid].
  destruct (propagate_shape info (finalWinner info allMaps)
              (update_eq_id matchId p (matches db)))
    as (f & created & Heq & Hf & Hc).
  rewrite Heq. unfold update_eq_id in *. split.
  - exists (f (apply_patch p info)). split.
    + apply elem_of_app. left. apply list_elem_of_fmap.
      exists (apply_patch p info). split; [done|].
      apply list_elem_of_fmap. exists info. split; [|done].
      by rewrite Hmid, N.eqb_refl.
    + by destruct (Hf (apply_patch p info)) as [-> _].
  - intros r [Hr|Hr]%elem_of_app Hrk.
    + apply list_elem_of_fmap in Hr as (r1 & -> & Hr1).
      apply list_elem_of_fmap in Hr1 as (r0 & -> & Hr0).
      destruct (Hf (if (mid r0 =? matchId)%N then apply_patch p r0 else r0))
        as (Hm & -> & -> & -> & -> & ->).
      rewrite Hm in Hrk.
      destruct (mid r0 =? matchId)%N eqn:E; [done|].
      by apply N.eqb_neq in E.
    + apply Hc in Hr.
      assert (apply_patch p info ∈
        (λ r0, if (mid r0 =? matchId)%N then apply_patch p r0 else r0)
          <$> matches db) as Hin'.
      { apply list_elem_of_fmap. exists info. split; [|done].
        by rewrite Hmid, N.eqb_refl. }
      apply mid_lt_fresh_id in Hin'. simpl in Hin'. lia.
Qed.

(** C7, as amended: after a save the match record is completed, and its
    [winner_id] is [team1_id] when team 1 has more map wins, [team2_id]
    when team 2 has more, and null when the two counts are equal. *)
Theorem completed_match_winner_follows_map_wins db matchId d info :
  matchId ≠ 0%N →
  single (List.filter (λ r, (mid r =? matchId)%N) (matches db)) = Some info →
  let saved := (POST true matchId (Some d) db).1 in
  let allMaps := maps_of matchId (match_maps saved) in
  let t1Wins := wins (team1_id info) allMaps in
  let t2Wins := wins (team2_id info) allMaps in
  (∃ r, r ∈ matches saved ∧ mid r = matchId)
  ∧ ∀ r, r ∈ matches saved → mid r = matchId →
      status r = Some "completed"
      ∧ (t2Wins < t1Wins → winner_id r = team1_id info)
      ∧ (t1Wins < t2Wins → winner_id r = team2_id info)
      ∧ (t1Wins = t2Wins → winner_id r = None).
Proof.
  intros Hk Hinfo saved allMaps t1Wins t2Wins.
  destruct (POST_match_rows db matchId d info Hk Hinfo) as [Hex Hrows].
  split; [done|].
  intros r Hr Hrk. destruct (Hrows r Hr Hrk) as (Hs & Hw & _).
  split; [done|]. rewrite Hw. unfold finalWinner.
  fold saved allMaps t1Wins t2Wins.
  repeat split; intros Hlt.
  - by rewrite (proj2 (Z.ltb_lt _ _) Hlt).
  - rewrite (proj2 (Z.ltb_ge _ _)) by lia. by rewrite (proj2 (Z.ltb_lt _ _) Hlt).
  - by rewrite !(proj2 (Z.ltb_ge _ _)) by lia.
Qed.

Lemma completed_match_winner_follows_map_wins_witness :
  let saved := (POST true 1 (Some (map_won_by 1 (Some 20%N))) one_map_saved).1 in
  (∃ r, r ∈ matches saved ∧ mid r = 1%N)
  ∧ ∀ r, r ∈ matches saved → mid r = 1%N →
      status r = Some "completed" ∧ winner_id r = None.
Proof.
  destruct (completed_match_winner_follows_map_wins one_map_saved 1
              (map_won_by 1 (Some 20%N)) league_match) as [Hex H];
    [discriminate | reflexivity |].
  split; [exact Hex|]. intros r Hr Hk.
  destruct (H r Hr Hk) as (Hs & _ & _ & Hw).
  split; [exact Hs | apply Hw; reflexivity].
Defined.

(** Two saves on the example match, one map for each team, and one save
    whose winner is neither team, each leave the match completed with a
    null [winner_id]. *)
Lemma completed_match_without_winner :
  let drawn :=
    (POST true 1 (Some (map_won_by 1 (Some 20%N))) one_map_saved).1 in
  let stranger :=
    (POST true 1 (Some (map_won_by 0 (Some 30%N))) (mkDb [] [league_match])).1 in
  (λ r, (status r, score_t1 r, score_t2 r, winner_id r)) <$> matches drawn
    = [(Some "completed", Some 1, Some 1, None)]
  ∧ (λ r, (status r, score_t1 r, score_t2 r, winner_id r)) <$> matches stranger
    = [(Some "completed", Some 0, Some 0, None)].
Proof. vm_compute. by split. Qed.

Lemma maps_of_save_map matchId d maps :
  maps_of matchId (save_map matchId d maps)
  = other_maps matchId d maps ++ [map_row matchId d].
Proof.
  unfold maps_of, save_map, other_maps.
  rewrite List.filter_app. simpl. rewrite N.eqb_refl. f_equal.
  induction maps as [|m maps IH]; simpl; [done|].
  destruct (map_match_id m =? matchId)%N eqn:E1,
           (map_index m =? index d) eqn:E2; simpl; rewrite ?E1, ?IH; done.
Qed.

Lemma wins_snoc team maps m :
  wins team (maps ++ [m])
  = wins team maps + (if strict_eq (map_winner_id m) team then 1 else 0).
Proof.
  unfold wins. rewrite List.filter_app, length_app. simpl.
  destruct (strict_eq _ _); simpl; lia.
Qed.

(** C8, as amended: a save whose winner is neither team of the match is
    not rejected. The answer is ok, the map row is stored, and the match
    record is updated: completed, with the map counted in [maps_played]
    and in neither score. *)
Theorem POST_accepts_winner_outside_match db matchId d info :
  matchId ≠ 0%N →
  single (List.filter (λ r, (mid r =? matchId)%N) (matches db)) = Some info →
  md_winner_id d ≠ team1_id info →
  md_winner_id d ≠ team2_id info →
  let others := other_maps matchId d (match_maps db) in
  let answer := POST true matchId (Some d) db in
  answer.2 = Ok
  ∧ map_row matchId d ∈ match_maps answer.1
  ∧ (∃ r, r ∈ matches answer.1 ∧ mid r = matchId)
  ∧ ∀ r, r ∈ matches answer.1 → mid r = matchId →
      status r = Some "completed"
      ∧ maps_played r = Some (Z.of_nat (length others) + 1)
      ∧ score_t1 r = Some (wins (team1_id info) others)
      ∧ score_t2 r = Some (wins (team2_id info) others).
Proof.
  intros Hk Hinfo H1 H2 others answer.
  destruct (POST_match_rows db matchId d info Hk Hinfo) as [Hex Hrows].
  fold answer in Hex, Hrows.
  assert (match_maps answer.1 = save_map matchId d (match_maps db)) as Hmaps.
  { unfold answer. by rewrite (POST_unfold _ _ _ _ Hk Hinfo). }
  split; [unfold answer; by rewrite (POST_unfold _ _ _ _ Hk Hinfo)|].
  split; [rewrite Hmaps; unfold save_map; apply elem_of_app; right; left|].
  split; [done|].
  intros r Hr Hrk. destruct (Hrows r Hr Hrk) as (Hs & _ & Hs1 & Hs2 & Hmp).
  rewrite Hmaps, maps_of_save_map in Hs1, Hs2, Hmp. fold others in Hs1, Hs2, Hmp.
  rewrite wins_snoc in Hs1, Hs2. rewrite length_app in Hmp. simpl in *.
  unfold strict_eq in *.
  rewrite bool_decide_eq_false_2 in Hs1 by done.
  rewrite bool_decide_eq_false_2 in Hs2 by done.
  rewrite Hs, Hs1, Hs2, Hmp. repeat split; f_equal; lia.
Qed.

Lemma POST_accepts_winner_outside_match_witness :
  let answer := POST true 1 (Some (map_won_by 1 (Some 30%N))) one_map_saved in
  answer.2 = Ok
  ∧ map_row 1 (map_won_by 1 (Some 30%N)) ∈ match_maps answer.1
  ∧ (∃ r, r ∈ matches answer.1 ∧ mid r = 1%N)
  ∧ ∀ r, r ∈ matches answer.1 → mid r = 1%N →
      status r = Some "completed"
      ∧ maps_played r = Some 2
      ∧ score_t1 r = Some 1
      ∧ score_t2 r = Some 0.
Proof.
  apply (POST_accepts_winner_outside_match one_map_saved 1
           (map_won_by 1 (Some 30%N)) league_match);
    [discriminate | reflexivity | discriminate | discriminate].
Defined.

(** A map whose winner, team 30, is neither team 10 nor team 20 of the
    example match is saved: the answer is ok, the row is in [match_maps],
    and the match record has changed to completed. *)
Lemma winner_outside_match_is_saved :
  let d := map_won_by 0 (Some 30%N) in
  let answer := POST true 1 (Some d) (mkDb [] [league_match]) in
  answer.2 = Ok
  ∧ match_maps answer.1 = [map_row 1 d]
  ∧ status <$> matches answer.1 = [Some "completed"]
  ∧ maps_played <$> matches answer.1 = [Some 1]
  ∧ matches answer.1 ≠ [league_match].
Proof. vm_compute. repeat split. discriminate. Qed.

End MapSaveFacts.

(** ** Properties of the admin page *)

Module AdminFacts.
Import JS DB Admin DBFacts Examples.

(** *** The forfeit save *)

(** What the forfeit save writes: when it runs (a match is selected, the
    forfeit box is ticked, no save is running) it clears the details of
    the match and sends one update: score 13-0, [winner_id] the first
    team of the selected entry, zero maps played, forfeit flag set,
    status completed, the team columns untouched. In every other state
    of the editor the button does nothing. *)
Lemma forfeit_save_records_team1 matchId forfeit saving fmt allMatches sel :
  List.find (λ m, (e_id m =? matchId)%N) allMatches = Some sel →
  ((matchId =? 0)%N || negb forfeit || saving = false →
   ∃ p, save_forfeit_button matchId forfeit saving fmt allMatches
        = [ClearMatchDetails matchId; UpdateMatch matchId p]
     ∧ ∀ r, score_t1 (apply_patch p r) = Some 13
          ∧ score_t2 (apply_patch p r) = Some 0
          ∧ winner_id (apply_patch p r) = e_team1_id sel
          ∧ maps_played (apply_patch p r) = Some 0
          ∧ is_forfeit (apply_patch p r) = Some 1
          ∧ status (apply_patch p r) = Some "completed"
          ∧ team1_id (apply_patch p r) = team1_id r
          ∧ team2_id (apply_patch p r) = team2_id r)
  ∧ ((matchId =? 0)%N || negb forfeit || saving = true →
     save_forfeit_button matchId forfeit saving fmt allMatches = []).
Proof.
  intros Hsel. unfold save_forfeit_button. split; intros Hen.
  - rewrite Hen.
    apply orb_false_iff in Hen as [[Hk Hf]%orb_false_iff _].
    destruct forfeit; [|done].
    unfold saveForfeitMatch. rewrite Hk, Hsel. simpl.
    eexists. split; [reflexivity|]. intros r. repeat split.
  - by rewrite Hen.
Qed.

Lemma forfeit_save_records_team1_witness :
  ∃ p, save_forfeit_button 1 true false "BO3" entries
       = [ClearMatchDetails 1; UpdateMatch 1 p]
    ∧ ∀ r, score_t1 (apply_patch p r) = Some 13
         ∧ score_t2 (apply_patch p r) = Some 0
         ∧ winner_id (apply_patch p r) = Some 10%N
         ∧ maps_played (apply_patch p r) = Some 0
         ∧ is_forfeit (apply_patch p r) = Some 1
         ∧ status (apply_patch p r) = Some "completed"
         ∧ team1_id (apply_patch p r) = team1_id r
         ∧ team2_id (apply_patch p r) = team2_id r.
Proof.
  refine (proj1 (forfeit_save_records_team1 1 true false "BO3" entries
                   (mkEntry 1 (Some 10%N) (Some 20%N)) _) _);
    reflexivity.
Defined.

(** C9 (evaluation at the failing input): the administrator guide has
    the winner of a forfeit selected by the administrator, but the save
    reads no winner. For the example entry, team 10 against team 20, no
    state of the forfeit box and of the saving flag records team 20 as
    the winner: with the box ticked and no save running the update
    carries team 10 and 13-0, and in the three other states the button
    writes nothing. *)
Theorem forfeit_save_cannot_record_team2 :
  let forfeit_for_team1 :=
    mkPatch None None (Some (Some "completed")) (Some (Some "BO3"))
      (Some (Some 13)) (Some (Some 0)) (Some (Some 0)) (Some (Some 10%N))
      (Some (Some 1)) in
  save_forfeit_button 1 true false "BO3" entries
    = [ClearMatchDetails 1; UpdateMatch 1 forfeit_for_team1]
  ∧ save_forfeit_button 1 false false "BO3" entries = []
  ∧ save_forfeit_button 1 true true "BO3" entries = []
  ∧ save_forfeit_button 1 false true "BO3" entries = []
  ∧ p_winner_id forfeit_for_team1 ≠ Some (Some 20%N).
Proof. vm_compute. repeat split. discriminate. Qed.

(** *** Creating the round-1 matches *)

Lemma bulk_insert_snoc rows row ms :
  bulk_insert (rows ++ [row]) ms = insert row (bulk_insert rows ms).
Proof. unfold bulk_insert. by rewrite foldl_snoc. Qed.

Lemma round1_positions_app ms1 ms2 :
  round1_positions (ms1 ++ ms2) = round1_positions ms1 ++ round1_positions ms2.
Proof.
  unfold round1_positions, getPlayoffMatches.
  by rewrite !List.filter_app, fmap_app.
Qed.

(** The rows sent by the button land at the end of the table, at the
    positions they were built for. *)
Lemma round1_positions_bulk_insert (l : list nat) ms :
  round1_positions
    (bulk_insert ((λ i, playoff_row 0 None None 1 (Z.of_nat i)) <$> l) ms)
  = round1_positions ms ++ (slot <$> l).
Proof.
  induction l as [|i l IH] using rev_ind.
  - simpl. by rewrite app_nil_r.
  - rewrite !fmap_app. simpl. rewrite bulk_insert_snoc. unfold insert.
    rewrite round1_positions_app, IH, <- app_assoc. done.
Qed.

(** The table after the button: the existing round-1 matches keep their
    positions, and the positions after their count, up to 8, are added. *)
Lemma round1_positions_createRound1 ms :
  let existing := length (round1_positions ms) in
  round1_positions (createRound1 ms)
  = round1_positions ms ++ (slot <$> seq (existing + 1) (8 - existing)).
Proof.
  intros existing. unfold createRound1, round1_payload.
  assert (length (List.filter (λ m, bool_decide (playoff_round m = Some 1))
                    (getPlayoffMatches ms)) = existing) as ->.
  { unfold existing, round1_positions. by rewrite length_fmap. }
  destruct (0 <? Z.max 0 (8 - Z.of_nat existing)) eqn:E.
  - apply round1_positions_bulk_insert.
  - apply Z.ltb_ge in E.
    replace (8 - existing)%nat with 0%nat by lia.
    simpl. by rewrite app_nil_r.
Qed.

Lemma createRound1_full ms :
  (8 ≤ length (round1_positions ms))%nat → createRound1 ms = ms.
Proof.
  intros Hlen. unfold createRound1, round1_payload.
  unfold round1_positions in Hlen. rewrite length_fmap in Hlen.
  rewrite (proj2 (Z.ltb_ge _ _)); [done|]. lia.
Qed.

(** C6, as amended: running the button again creates nothing, whatever
    the round-1 matches it starts from, and after a run there are 8
    round-1 matches, or as many as there were when there were more. When
    the existing round-1 matches occupy the positions 1 to k once each
    (k at most 8, possibly none), after the run there is exactly one
    round-1 match at each of the positions 1 to 8. *)
Theorem createRound1_idempotent_and_complete ms :
  createRound1 (createRound1 ms) = createRound1 ms
  ∧ length (round1_positions (createRound1 ms))
    = Nat.max 8 (length (round1_positions ms))
  ∧ ∀ k, (k ≤ 8)%nat →
      round1_positions ms ≡ₚ slot <$> seq 1 k →
      round1_positions (createRound1 ms) ≡ₚ slot <$> seq 1 8.
Proof.
  pose proof (round1_positions_createRound1 ms) as Hpos. simpl in Hpos.
  assert (length (round1_positions (createRound1 ms))
          = Nat.max 8 (length (round1_positions ms))) as Hlen.
  { rewrite Hpos, length_app, length_fmap, length_seq. lia. }
  split; [apply createRound1_full; lia|]. split; [done|].
  intros k Hk Hperm. rewrite Hpos.
  assert (length (round1_positions ms) = k) as ->.
  { by rewrite Hperm, length_fmap, length_seq. }
  rewrite Hperm, <- fmap_app.
  replace (k + 1)%nat with (1 + k)%nat by lia.
  rewrite <- seq_app. by replace (k + (8 - k))%nat with 8%nat by lia.
Qed.

Lemma createRound1_idempotent_and_complete_witness :
  createRound1 (createRound1 []) = createRound1 []
  ∧ round1_positions (createRound1 []) ≡ₚ slot <$> seq 1 8.
Proof.
  destruct (createRound1_idempotent_and_complete []) as (Hi & _ & Hc).
  split; [exact Hi|]. apply (Hc 0%nat); [lia | reflexivity].
Defined.

(** From a single round-1 match at position 5 the button creates the
    positions 2 to 8: position 5 is held by two matches and position 1
    by none. *)
Lemma createRound1_duplicates_position :
  round1_positions (createRound1 lone_round1)
    = [Some 5; Some 2; Some 3; Some 4; Some 5; Some 6; Some 7; Some 8]
  ∧ ¬ NoDup (round1_positions (createRound1 lone_round1))
  ∧ (Some 1 ∉ round1_positions (createRound1 lone_round1))
  ∧ ¬ (round1_positions (createRound1 lone_round1) ≡ₚ slot <$> seq 1 8).
Proof.
  assert (round1_positions (createRound1 lone_round1)
    = [Some 5; Some 2; Some 3; Some 4; Some 5; Some 6; Some 7; Some 8]) as ->
    by by vm_compute.
  split; [done|]. split; [|split].
  - compute_done.
  - compute_done.
  - intros Hp. assert (Some 1 ∈ slot <$> seq 1 8) as Hin by (by left).
    rewrite <- Hp in Hin. revert Hin. compute_done.
Qed.

(** *** Seeding the round-2 byes *)

Lemma slot_match_elem round pos ms e :
  slot_match round pos ms = Some e → e ∈ ms ∧ is_slot round pos e = true.
Proof.
  intros [Hin Hslot]%List.find_some. split; [by apply list_elem_of_In | done].
Qed.


Lemma NoDup_mid_inj ms (r1 r2 : MatchRow) :
  NoDup (mid <$> ms) → r1 ∈ ms → r2 ∈ ms → mid r1 = mid r2 → r1 = r2.
Proof.
  induction ms as [|x ms IH]; intros Hnd H1 H2 Heq.
  - by apply elem_of_nil in H1.
  - rewrite fmap_cons in Hnd. apply NoDup_cons in Hnd as [Hx Hnd].
    apply elem_of_cons in H1 as [->|H1], H2 as [->|H2]; [done| | |by apply IH].
    + exfalso. apply Hx. rewrite Heq. by apply list_elem_of_fmap_2.
    + exfalso. apply Hx. rewrite <- Heq. by apply list_elem_of_fmap_2.
Qed.

Lemma mid_update_eq_id k p ms : mid <$> update_eq_id k p ms = mid <$> ms.
Proof.
  unfold update_eq_id. rewrite <- list_fmap_compose.
  apply list_fmap_ext. intros _ r _. simpl. by destruct (mid r =? k)%N.
Qed.

Lemma fresh_id_not_in ms : fresh_id ms ∉ mid <$> ms.
Proof.
  intros (r & Hr & Hin)%list_elem_of_fmap.
  apply mid_lt_fresh_id in Hin. lia.
Qed.















End AdminFacts.


(** ** Further properties of the standings calculator *)

Module TablesFacts.
Import JS Standings Tables Examples.

Lemma add_played_bump d r : add_played d r = bump (mkDelta d 0 0 0 0 0) r.
Proof. destruct r. unfold add_played, bump. simpl. f_equal; lia. Qed.
Lemma add_wins_bump d r : add_wins d r = bump (mkDelta 0 d 0 0 0 0) r.
Proof. destruct r. unfold add_wins, bump. simpl. f_equal; lia. Qed.
Lemma add_losses_bump d r : add_losses d r = bump (mkDelta 0 0 d 0 0 0) r.
Proof. destruct r. unfold add_losses, bump. simpl. f_equal; lia. Qed.
Lemma add_points_bump d r : add_points d r = bump (mkDelta 0 0 0 d 0 0) r.
Proof. destruct r. unfold add_points, bump. simpl. f_equal; lia. Qed.
Lemma add_pd_bump d r : add_pd d r = bump (mkDelta 0 0 0 0 d 0) r.
Proof. destruct r. unfold add_pd, bump. simpl. f_equal; lia. Qed.
Lemma add_remaining_bump d r : add_remaining d r = bump (mkDelta 0 0 0 0 0 d) r.
Proof. destruct r. unfold add_remaining, bump. simpl. f_equal; lia. Qed.

Lemma bump_eq d d' r r' :
  r_id r = r_id r' → r_name r = r_name r' → r_group_name r = r_group_name r' →
  r_eliminated r = r_eliminated r' →
  r_played r + d_played d = r_played r' + d_played d' →
  r_wins r + d_wins d = r_wins r' + d_wins d' →
  r_losses r + d_losses d = r_losses r' + d_losses d' →
  r_points r + d_points d = r_points r' + d_points d' →
  r_pd r + d_pd d = r_pd r' + d_pd d' →
  r_remaining r + d_remaining d = r_remaining r' + d_remaining d' →
  bump d r = bump d' r'.
Proof. unfold bump. by intros -> -> -> -> -> -> -> -> -> ->. Qed.

(** The body of the loop over the matches, as one addition per side. *)
Ltac rows_eq :=
  cbv beta iota delta
    [add_played add_wins add_losses add_points add_pd add_remaining bump
     r_id r_name r_group_name r_played r_wins r_losses r_points r_pd
     r_remaining r_eliminated d_played d_wins d_losses d_points d_pd
     d_remaining];
  f_equal; lia.

Lemma account_bump agg (b : gmap N StandingRow) m k1 k2 :
  m_team1_id m = Some k1 → m_team2_id m = Some k2 →
  is_Some (b !! k1) → is_Some (b !! k2) →
  account agg b m
  = alter (bump (side_delta agg m false)) k2
      (alter (bump (side_delta agg m true)) k1 b).
Proof.
  intros H1 H2 [x1 Hx1] [x2 Hx2]. unfold account, side_delta.
  rewrite H1, H2, Hx1, Hx2.
  destruct (scores agg m) as [s1 s2] eqn:Hs.
  cbn [fst snd]. unfold result_delta, pending_delta.
  apply map_eq. intros k.
  destruct (played agg m), (s2 <? s1) eqn:E21, (s1 <? s2) eqn:E12;
    try lia;
    destruct (decide (k1 = k)) as [E1|E1], (decide (k2 = k)) as [E2|E2];
    subst;
    repeat (rewrite lookup_alter_eq || rewrite lookup_alter_ne by done);
    destruct (b !! k) as [r|]; try reflexivity;
    cbn [fmap option_fmap option_map]; f_equal; destruct r; rows_eq.
Qed.

Lemma computeStandings_counted teams matches maps :
  computeStandings teams matches maps
  = (let sorted := sort_rows (Object_values (counted teams matches maps)) in
     mark (sixth_points sorted) <$> sorted).
Proof. reflexivity. Qed.

(** C2, as amended: the table is built by applying the body of the loop
    to each regular match in turn, and what that body adds to the rows
    of the two teams (played, points, wins and losses, point
    differential) is computed from scores resolved side by side: the
    side's rounds summed over the map rows of the match when that sum is
    positive, the stored score field of that side otherwise, so also
    when the match has map rows in which the side's rounds sum to
    zero. *)
Theorem standings_use_resolved_scores teams matches maps m
    (b : gmap N StandingRow) k1 k2 :
  m_team1_id m = Some k1 → m_team2_id m = Some k2 →
  is_Some (b !! k1) → is_Some (b !! k2) →
  let sums := summed_rounds (match_rows maps (m_id m)) in
  let score_t1 := if 0 <? sums.1 then sums.1 else num_or (m_score_t1 m) 0 in
  let score_t2 := if 0 <? sums.2 then sums.2 else num_or (m_score_t2 m) 0 in
  let is_played :=
    String.eqb (toLowerCase (str_or (m_status m) "")) "completed"
    || (0 <? score_t1 + score_t2)
    || (0 <? num_or (m_maps_played m) 0)
    || (num_or (m_is_forfeit m) 0 =? 1) in
  computeStandings teams matches maps
  = (let byTeam :=
       foldl (account (roundAgg maps)) (blank_table teams)
         (List.filter is_regular matches) in
     let sorted := sort_rows (Object_values byTeam) in
     mark (sixth_points sorted) <$> sorted)
  ∧ account (roundAgg maps) b m
    = if is_played
      then alter (bump (result_delta score_t2 score_t1)) k2
             (alter (bump (result_delta score_t1 score_t2)) k1 b)
      else alter (bump pending_delta) k2 (alter (bump pending_delta) k1 b).
Proof.
  intros H1 H2 Hk1 Hk2. cbn zeta. split; [reflexivity|].
  rewrite (account_bump _ b m k1 k2 H1 H2 Hk1 Hk2).
  unfold side_delta, played.
  rewrite StandingsFacts.scores_take_positive_sums. cbn zeta.
  cbn [fst snd].
  by destruct (_ || _ || _ || _).
Qed.

Lemma standings_use_resolved_scores_witness :
  let b := blank_table [mkTeam 1 "Alpha" "A"; mkTeam 2 "Bravo" "A"] in
  computeStandings [mkTeam 1 "Alpha" "A"; mkTeam 2 "Bravo" "A"]
    [stale_match] stale_maps
  = (let byTeam := foldl (account (roundAgg stale_maps)) b [stale_match] in
     let sorted := sort_rows (Object_values byTeam) in
     mark (sixth_points sorted) <$> sorted)
  ∧ account (roundAgg stale_maps) b stale_match
    = alter (bump (result_delta 13 1)) 2%N
        (alter (bump (result_delta 1 13)) 1%N b).
Proof.
  apply (standings_use_resolved_scores
           [mkTeam 1 "Alpha" "A"; mkTeam 2 "Bravo" "A"] [stale_match]
           stale_maps stale_match
           (blank_table [mkTeam 1 "Alpha" "A"; mkTeam 2 "Bravo" "A"]) 1 2).
  - reflexivity.
  - reflexivity.
  - eexists. reflexivity.
  - eexists. reflexivity.
Defined.

(** What a match does to the row under a key: nothing, or the addition
    of one side, or of both sides when a team meets itself. *)
Lemma account_lookup agg (b : gmap N StandingRow) m k :
  account agg b m !! k = b !! k
  ∨ account agg b m !! k = bump (side_delta agg m true) <$> b !! k
  ∨ account agg b m !! k = bump (side_delta agg m false) <$> b !! k
  ∨ account agg b m !! k
    = bump (side_delta agg m false) <$> (bump (side_delta agg m true) <$> b !! k).
Proof.
  destruct (m_team1_id m) as [k1|] eqn:H1; [|left; unfold account; by rewrite H1].
  destruct (m_team2_id m) as [k2|] eqn:H2;
    [|left; unfold account; by rewrite H1, H2].
  destruct (b !! k1) as [x1|] eqn:Hx1;
    [|left; unfold account; by rewrite H1, H2, Hx1].
  destruct (b !! k2) as [x2|] eqn:Hx2;
    [|left; unfold account; by rewrite H1, H2, Hx1, Hx2].
  rewrite (account_bump agg b m k1 k2) by eauto.
  destruct (decide (k1 = k)) as [E1|E1], (decide (k2 = k)) as [E2|E2]; subst;
    repeat (rewrite lookup_alter_eq || rewrite lookup_alter_ne by done); auto.
Qed.

(** An invariant of the rows that every addition keeps is kept by the
    loop over the matches. *)
Lemma account_Forall (P : N → StandingRow → Prop) agg (b : gmap N StandingRow) m :
  (∀ k r side, P k r → P k (bump (side_delta agg m side) r)) →
  map_Forall P b → map_Forall P (account agg b m).
Proof.
  intros Hstep Hb k r Hr.
  destruct (account_lookup agg b m k) as [H|[H|[H|H]]]; rewrite H in Hr.
  - by apply Hb.
  - destruct (b !! k) as [r0|] eqn:E; simplify_eq/=. by apply Hstep, Hb.
  - destruct (b !! k) as [r0|] eqn:E; simplify_eq/=. by apply Hstep, Hb.
  - destruct (b !! k) as [r0|] eqn:E; simplify_eq/=. by apply Hstep, Hstep, Hb.
Qed.

Lemma blank_table_Forall (P : N → StandingRow → Prop) teams :
  (∀ t, t ∈ teams → P (t_id t) (blank t)) →
  map_Forall P (blank_table teams).
Proof.
  intros Hblank. unfold blank_table.
  assert (∀ b : gmap N StandingRow, map_Forall P b →
            map_Forall P (foldl (λ b t, <[t_id t := blank t]> b) b teams)) as H.
  { induction teams as [|t teams IH]; intros b Hb; simpl; [done|].
    apply IH.
    - intros t' Ht'. apply Hblank. by right.
    - apply map_Forall_insert_2; [apply Hblank; left | done]. }
  apply H, map_Forall_empty.
Qed.

Lemma counted_Forall (P : N → StandingRow → Prop) teams matches maps :
  (∀ t, t ∈ teams → P (t_id t) (blank t)) →
  (∀ m k r side, m ∈ matches → P k r →
     P k (bump (side_delta (roundAgg maps) m side) r)) →
  map_Forall P (counted teams matches maps).
Proof.
  intros Hblank Hstep. unfold counted.
  pose proof (blank_table_Forall P teams Hblank) as Hb.
  assert (∀ m, m ∈ List.filter is_regular matches → m ∈ matches) as Hsub.
  { intros m [Hm _]%list_elem_of_In%List.filter_In. by apply list_elem_of_In. }
  revert Hb Hsub. generalize (blank_table teams).
  induction (List.filter is_regular matches) as [|m ms IH]; intros b Hb Hsub;
    simpl; [done|].
  apply IH.
  - apply account_Forall; [|done]. intros k r side. apply Hstep, Hsub. left.
  - intros m' Hm'. apply Hsub. by right.
Qed.

(** A match neither adds nor removes a row. *)
Lemma account_is_Some agg (b : gmap N StandingRow) m k :
  is_Some (account agg b m !! k) ↔ is_Some (b !! k).
Proof.
  destruct (account_lookup agg b m k) as [H|[H|[H|H]]]; rewrite H;
    rewrite ?fmap_is_Some; done.
Qed.

Lemma blank_table_is_Some teams k :
  is_Some (blank_table teams !! k) ↔ k ∈ t_id <$> teams.
Proof.
  unfold blank_table.
  assert (∀ b : gmap N StandingRow,
            is_Some (foldl (λ b t, <[t_id t := blank t]> b) b teams !! k)
            ↔ is_Some (b !! k) ∨ k ∈ t_id <$> teams) as H.
  { induction teams as [|t teams IH]; intros b.
    - rewrite fmap_nil, elem_of_nil. simpl. tauto.
    - rewrite fmap_cons, elem_of_cons. cbn [foldl].
      rewrite IH, lookup_insert_is_Some.
      destruct (decide (t_id t = k)); intuition auto. }
  rewrite H, lookup_empty, is_Some_alt. tauto.
Qed.

Lemma counted_is_Some teams matches maps k :
  is_Some (counted teams matches maps !! k) ↔ k ∈ t_id <$> teams.
Proof.
  unfold counted. rewrite <- blank_table_is_Some.
  generalize (blank_table teams).
  induction (List.filter is_regular matches) as [|m ms IH]; intros b; simpl;
    [done|].
  by rewrite IH, account_is_Some.
Qed.

Lemma insert_row_Permutation a l : insert_row a l ≡ₚ a :: l.
Proof.
  induction l as [|b l IH]; simpl; [done|].
  destruct (compare_rows a b <=? 0); [done|].
  rewrite IH. apply perm_swap.
Qed.

Lemma sort_rows_Permutation l : sort_rows l ≡ₚ l.
Proof.
  unfold sort_rows. induction l as [|a l IH]; simpl; [done|].
  by rewrite insert_row_Permutation, IH.
Qed.

Lemma Object_values_Permutation {A} (o : gmap N A) :
  Object_values o ≡ₚ (map_to_list o).*2.
Proof. unfold Object_values. by rewrite merge_sort_Permutation. Qed.

(** The rows of the result are the rows of [byTeam], re-ordered and
    flagged. *)
Lemma computeStandings_Permutation teams matches maps :
  ∃ sixth,
    computeStandings teams matches maps
    ≡ₚ mark sixth <$> (map_to_list (counted teams matches maps)).*2.
Proof.
  rewrite computeStandings_counted.
  exists (sixth_points (sort_rows (Object_values (counted teams matches maps)))).
  cbn zeta. apply fmap_Permutation.
  by rewrite sort_rows_Permutation, Object_values_Permutation.
Qed.

Lemma r_id_mark s r : r_id (mark s r) = r_id r.
Proof. reflexivity. Qed.

Lemma counted_keyed teams matches maps :
  map_Forall (λ k r, r_id r = k) (counted teams matches maps).
Proof. apply counted_Forall; [done|]. by intros. Qed.

Lemma ids_Permutation teams matches maps :
  r_id <$> computeStandings teams matches maps
  ≡ₚ (map_to_list (counted teams matches maps)).*1.
Proof.
  destruct (computeStandings_Permutation teams matches maps) as [sixth ->].
  rewrite <- !list_fmap_compose.
  match goal with |- ?a ≡ₚ ?b => assert (a = b) as ->; [|done] end.
  apply list_fmap_ext. intros i [k r] Hkr. simpl.
  apply list_elem_of_lookup_2, elem_of_map_to_list in Hkr.
  by apply (counted_keyed teams matches maps k r).
Qed.

(** X1: the table has exactly one row for every id of the list of teams. *)
Theorem every_team_has_one_row teams matches maps :
  NoDup (r_id <$> computeStandings teams matches maps)
  ∧ ∀ k, k ∈ r_id <$> computeStandings teams matches maps ↔ k ∈ t_id <$> teams.
Proof.
  split.
  - rewrite ids_Permutation. apply NoDup_fst_map_to_list.
  - intros k. rewrite ids_Permutation, <- counted_is_Some.
    rewrite list_elem_of_fmap. split.
    + intros ([k' r] & -> & Hkr%elem_of_map_to_list). eauto.
    + intros [r Hr]. exists (k, r). split; [done|]. by apply elem_of_map_to_list.
Qed.

(** *** The order of the table *)

Lemma compare_rows_le a b : compare_rows a b ≤ 0 ↔ ranked_before a b.
Proof.
  unfold compare_rows, ranked_before.
  destruct (r_points b =? r_points a) eqn:E; simpl.
  - apply Z.eqb_eq in E. lia.
  - apply Z.eqb_neq in E. lia.
Qed.

Lemma ranked_before_trans a b c :
  ranked_before a b → ranked_before b c → ranked_before a c.
Proof. unfold ranked_before. lia. Qed.

Lemma ranked_before_total a b : ranked_before a b ∨ ranked_before b a.
Proof. unfold ranked_before. lia. Qed.

Lemma insert_row_sorted a l :
  StronglySorted ranked_before l → StronglySorted ranked_before (insert_row a l).
Proof.
  induction l as [|b l IH]; intros Hl; simpl.
  - by repeat constructor.
  - apply StronglySorted_inv in Hl as [Hl Hb].
    destruct (compare_rows a b <=? 0) eqn:E.
    + apply Z.leb_le, compare_rows_le in E.
      constructor; [by constructor|]. constructor; [done|].
      eapply Forall_impl; [exact Hb|]. intros c Hc.
      by apply (ranked_before_trans a b c).
    + apply Z.leb_gt in E.
      assert (ranked_before b a) as Hba.
      { destruct (ranked_before_total a b) as [H|H]; [|done].
        apply compare_rows_le in H. lia. }
      constructor; [by apply IH|].
      rewrite insert_row_Permutation. by constructor.
Qed.

Lemma sort_rows_sorted l : StronglySorted ranked_before (sort_rows l).
Proof.
  unfold sort_rows. induction l as [|a l IH]; simpl; [constructor|].
  by apply insert_row_sorted.
Qed.

Lemma mark_sorted s l :
  StronglySorted ranked_before l → StronglySorted ranked_before (mark s <$> l).
Proof.
  induction 1 as [|a l Hl IH Ha]; simpl; constructor; [done|].
  apply Forall_fmap. eapply Forall_impl; [exact Ha|]. by intros c Hc.
Qed.

Lemma sorted_after_mark teams matches maps :
  StronglySorted ranked_before (computeStandings teams matches maps).
Proof.
  rewrite computeStandings_counted. cbn zeta.
  apply mark_sorted, sort_rows_sorted.
Qed.

(** X2: the table is in ranking order: a row has more points than every
    row after it, or as many points and a point differential at least as
    large. *)
Theorem computeStandings_ranked teams matches maps :
  StronglySorted ranked_before (computeStandings teams matches maps).
Proof. apply sorted_after_mark. Qed.

(** *** Counters of a row *)

Lemma computeStandings_elem teams matches maps r :
  r ∈ computeStandings teams matches maps →
  ∃ r0 s, counted teams matches maps !! r_id r = Some r0 ∧ r = mark s r0.
Proof.
  destruct (computeStandings_Permutation teams matches maps) as [sixth ->].
  intros (r0 & -> & ([k r1] & -> & Hkr%elem_of_map_to_list)%list_elem_of_fmap)
    %list_elem_of_fmap.
  simpl. exists r1, sixth. split; [|done].
  by rewrite (counted_keyed teams matches maps k r1 Hkr).
Qed.

Lemma sound_row_bump agg m side r :
  sound_row r → sound_row (bump (side_delta agg m side) r).
Proof.
  unfold sound_row, side_delta, result_delta, pending_delta.
  destruct r, (played agg m), side; cbn [fst snd];
    repeat case_match;
    cbv beta iota delta
      [bump r_played r_wins r_losses r_points r_remaining d_played d_wins
       d_losses d_points d_remaining];
    lia.
Qed.

Lemma counted_sound teams matches maps :
  map_Forall (λ _ r, sound_row r) (counted teams matches maps).
Proof.
  apply counted_Forall.
  - intros t _. unfold sound_row. simpl. lia.
  - intros m k r side _. apply sound_row_bump.
Qed.

(** X3: in every row the counters fit together: wins and losses are not
    negative and together do not exceed the matches played, the
    remaining matches are not negative, and the points are at most 15
    for each win and 12 for each other played match. *)
Theorem rows_are_sound teams matches maps r :
  r ∈ computeStandings teams matches maps → sound_row r.
Proof.
  intros (r0 & s & Hr0 & ->)%computeStandings_elem.
  exact (counted_sound teams matches maps _ _ Hr0).
Qed.

Lemma rows_are_sound_witness :
  sound_row (mkRow 8 "Hotel" "B" 1 1 0 15 13 0 false).
Proof.
  apply (rows_are_sound two_groups_teams two_groups_matches []).
  vm_compute. do 0 right. left.
Defined.

(** *** Sums of columns *)

Lemma total_Permutation f l l' : l ≡ₚ l' → total f l = total f l'.
Proof. unfold total. induction 1; simpl; lia. Qed.

Lemma total_mark f s l :
  (∀ r, f (mark s r) = f r) → total f (mark s <$> l) = total f l.
Proof.
  intros Hf. unfold total. induction l as [|r l IH]; [done|].
  rewrite fmap_cons. cbn [foldr]. by rewrite Hf, IH.
Qed.

Lemma total_alter f g (b : gmap N StandingRow) k x :
  b !! k = Some x →
  total f (map_to_list (alter g k b)).*2
  = total f (map_to_list b).*2 + f (g x) - f x.
Proof.
  intros Hx.
  assert (alter g k b = <[k := g x]> (delete k b)) as ->.
  { apply map_eq. intros j. destruct (decide (k = j)) as [->|Hj].
    - by rewrite lookup_alter_eq, lookup_insert_eq, Hx.
    - by rewrite lookup_alter_ne, lookup_insert_ne, lookup_delete_ne. }
  rewrite (total_Permutation f _ _
    (fmap_Permutation snd _ _ (map_to_list_insert (delete k b) k (g x)
                                 (lookup_delete_eq b k)))).
  rewrite <- (total_Permutation f _ _
    (fmap_Permutation snd _ _ (map_to_list_delete b k x Hx))).
  simpl. lia.
Qed.

(** A column in which the two sides of every match add up to nothing
    sums to nothing over the table. *)
Lemma total_balanced (f : StandingRow → Z) (g : Delta → Z) teams matches maps :
  (∀ d r, f (bump d r) = f r + g d) →
  (∀ s r, f (mark s r) = f r) →
  (∀ t, f (blank t) = 0) →
  (∀ agg m, g (side_delta agg m true) + g (side_delta agg m false) = 0) →
  total f (computeStandings teams matches maps) = 0.
Proof.
  intros Hbump Hmark Hblank Hzero.
  destruct (computeStandings_Permutation teams matches maps) as [sixth Hp].
  rewrite (total_Permutation f _ _ Hp), total_mark by done.
  unfold counted.
  assert (total f (map_to_list (blank_table teams)).*2 = 0) as Hb.
  { assert (map_Forall (λ _ r, f r = 0) (blank_table teams)) as Hall
      by (apply blank_table_Forall; by intros).
    apply map_Forall_to_list in Hall.
    unfold total.
    induction Hall as [|[k r] l Hr Hl IH]; simpl in *; [done|].
    rewrite Hr, Z.add_0_l. exact IH. }
  revert Hb. generalize (blank_table teams).
  induction (List.filter is_regular matches) as [|m ms IH]; intros b Hb;
    simpl; [done|].
  apply IH.
  destruct (m_team1_id m) as [k1|] eqn:H1; [|unfold account; by rewrite H1].
  destruct (m_team2_id m) as [k2|] eqn:H2;
    [|unfold account; by rewrite H1, H2].
  destruct (b !! k1) as [x1|] eqn:Hx1;
    [|unfold account; by rewrite H1, H2, Hx1].
  destruct (b !! k2) as [x2|] eqn:Hx2;
    [|unfold account; by rewrite H1, H2, Hx1, Hx2].
  rewrite (account_bump _ b m k1 k2) by eauto.
  assert (is_Some (alter (bump (side_delta (roundAgg maps) m true)) k1 b !! k2))
    as [y Hy].
  { destruct (decide (k1 = k2)) as [->|Hne].
    - rewrite lookup_alter_eq, Hx1. eauto.
    - rewrite lookup_alter_ne, Hx2 by done. eauto. }
  rewrite (total_alter f _ _ k2 y Hy), (total_alter f _ b k1 x1 Hx1), !Hbump.
  specialize (Hzero (roundAgg maps) m). lia.
Qed.

Lemma total_sub f g l :
  total (λ r, f r - g r) l = total f l - total g l.
Proof. unfold total. induction l as [|r l IH]; simpl; lia. Qed.

(** *** Sums within the range of exact numbers *)

Lemma summed_rounds_bound rows :
  Forall (λ row, small (mr_team1_rounds row) ∧ small (mr_team2_rounds row))
    rows →
  - (Z.of_nat (length rows) * 2 ^ 20) ≤ (summed_rounds rows).1
      ≤ Z.of_nat (length rows) * 2 ^ 20
  ∧ - (Z.of_nat (length rows) * 2 ^ 20) ≤ (summed_rounds rows).2
      ≤ Z.of_nat (length rows) * 2 ^ 20.
Proof.
  intros Hrows. unfold summed_rounds.
  set (f := λ (acc : Z * Z) row,
              (acc.1 + num_or (mr_team1_rounds row) 0,
               acc.2 + num_or (mr_team2_rounds row) 0)).
  enough (∀ acc : Z * Z,
            - (Z.of_nat (length rows) * 2 ^ 20) ≤ (foldl f acc rows).1 - acc.1
              ≤ Z.of_nat (length rows) * 2 ^ 20
            ∧ - (Z.of_nat (length rows) * 2 ^ 20)
                ≤ (foldl f acc rows).2 - acc.2
                ≤ Z.of_nat (length rows) * 2 ^ 20) as H.
  { specialize (H (0, 0)). cbn [fst snd] in H. by rewrite !Z.sub_0_r in H. }
  change (2 ^ 20) with 1048576.
  induction Hrows as [|row rows [H1 H2] _ IH]; intros [a1 a2].
  - subst f. cbn [foldl length fst snd]. lia.
  - cbn [foldl length]. unfold small in H1, H2.
    change (2 ^ 20) with 1048576 in H1, H2.
    specialize (IH (f (a1, a2) row)).
    destruct (foldl f (f (a1, a2) row) rows) as [x1 x2].
    subst f. cbn [fst snd] in *. lia.
Qed.

Lemma filter_length_le {A} (P : A → bool) l :
  (length (List.filter P l) ≤ length l)%nat.
Proof.
  induction l as [|x l IH]; simpl; [done|]. destruct (P x); simpl; lia.
Qed.

Lemma filter_Forall {A} (Q : A → Prop) (P : A → bool) l :
  Forall Q l → Forall Q (List.filter P l).
Proof.
  induction 1 as [|x l Hx _ IH]; simpl; [done|].
  destruct (P x); [by constructor|done].
Qed.

(** The scores of a match of a small input are at most [2^35]. *)
Lemma scores_bound maps m :
  small_maps maps → small (m_score_t1 m) → small (m_score_t2 m) →
  - 2 ^ 35 ≤ (scores (roundAgg maps) m).1 ≤ 2 ^ 35
  ∧ - 2 ^ 35 ≤ (scores (roundAgg maps) m).2 ≤ 2 ^ 35.
Proof.
  intros [Hlen Hrows] H1 H2. unfold scores. cbn zeta.
  rewrite StandingsFacts.roundAgg_lookup.
  destruct (summed_rounds_bound (match_rows maps (m_id m))) as [B1 B2];
    [by apply filter_Forall|].
  pose proof (filter_length_le (λ row, (mr_match_id row =? m_id m)%N) maps)
    as Hl.
  fold (match_rows maps (m_id m)) in Hl.
  unfold small in H1, H2. cbn [fst snd].
  change (2 ^ 35) with 34359738368.
  change (2 ^ 20) with 1048576 in *. change (2 ^ 15) with 32768 in *.
  split.
  - destruct (0 <? (summed_rounds (match_rows maps (m_id m))).1); lia.
  - destruct (0 <? (summed_rounds (match_rows maps (m_id m))).2); lia.
Qed.

(** What such a match adds to a counter is at most [2^36]. *)
Lemma side_delta_bound maps m side :
  small_maps maps → small (m_score_t1 m) → small (m_score_t2 m) →
  delta_within (2 ^ 36) (side_delta (roundAgg maps) m side).
Proof.
  intros Hmaps H1 H2.
  destruct (scores_bound maps m Hmaps H1 H2) as [B1 B2].
  unfold side_delta, result_delta, pending_delta, delta_within.
  destruct (scores (roundAgg maps) m) as [s1 s2]. cbn [fst snd] in *.
  change (2 ^ 35) with 34359738368 in *. change (2 ^ 36) with 68719476736.
  destruct (played _ m), side; cbn [d_played d_wins d_losses d_points d_pd
                                     d_remaining];
    repeat split; try lia;
    destruct (s2 <? s1), (s1 <? s2); lia.
Qed.

Lemma bump_within B D d r :
  row_within B r → delta_within D d → row_within (B + D) (bump d r).
Proof.
  unfold row_within, delta_within, bump.
  cbn [r_played r_wins r_losses r_points r_pd r_remaining]. lia.
Qed.

Lemma row_within_mono B B' r : B ≤ B' → row_within B r → row_within B' r.
Proof. unfold row_within. lia. Qed.

(** One match moves every counter of the table by at most [2^37]: a
    row takes the addition of one side or, for a team that meets
    itself, of both. *)
Lemma account_within maps (b : gmap N StandingRow) m B :
  small_maps maps → small (m_score_t1 m) → small (m_score_t2 m) →
  map_Forall (λ _ r, row_within B r) b →
  map_Forall (λ _ r, row_within (B + 2 ^ 37) r) (account (roundAgg maps) b m).
Proof.
  intros Hmaps H1 H2 Hb k r Hr.
  pose proof (side_delta_bound maps m true Hmaps H1 H2) as Dt.
  pose proof (side_delta_bound maps m false Hmaps H1 H2) as Df.
  change (2 ^ 37) with (68719476736 + 68719476736).
  change (2 ^ 36) with 68719476736 in Dt, Df.
  destruct (account_lookup (roundAgg maps) b m k) as [E|[E|[E|E]]];
    rewrite E in Hr; destruct (b !! k) as [r0|] eqn:Hk; try discriminate;
    cbn [fmap option_fmap option_map] in Hr; injection Hr as <-;
    specialize (Hb k r0 Hk).
  - apply (row_within_mono B); [lia|done].
  - apply (row_within_mono (B + 68719476736)); [lia|].
    by apply bump_within.
  - apply (row_within_mono (B + 68719476736)); [lia|].
    by apply bump_within.
  - rewrite Z.add_assoc. apply bump_within; [|done]. by apply bump_within.
Qed.

Lemma foldl_account_within maps ms : ∀ (b : gmap N StandingRow) B,
  small_maps maps →
  Forall (λ m, small (m_score_t1 m) ∧ small (m_score_t2 m)) ms →
  map_Forall (λ _ r, row_within B r) b →
  map_Forall (λ _ r, row_within (B + Z.of_nat (length ms) * 2 ^ 37) r)
    (foldl (account (roundAgg maps)) b ms).
Proof.
  induction ms as [|m ms IH]; intros b B Hmaps Hms Hb.
  - cbn [foldl length]. by rewrite Z.mul_0_l, Z.add_0_r.
  - apply Forall_cons in Hms as [[H1 H2] Hms]. cbn [foldl].
    replace (B + Z.of_nat (length (m :: ms)) * 2 ^ 37)
      with (B + 2 ^ 37 + Z.of_nat (length ms) * 2 ^ 37)
      by (cbn [length]; lia).
    apply IH; [done|done|]. by apply account_within.
Qed.

(** On a small input every counter of the table, after any number of
    matches, is an integer that a JavaScript number holds exactly. *)
Lemma counted_safe teams matches maps :
  small_maps maps → small_matches matches →
  map_Forall (λ _ r, safe_row r) (counted teams matches maps).
Proof.
  intros Hmaps [Hlen Hms]. unfold counted.
  assert (map_Forall (λ _ r, row_within 0 r) (blank_table teams)) as Hb.
  { apply blank_table_Forall.
    intros t _. unfold row_within, blank. simpl. lia. }
  pose proof (foldl_account_within maps (List.filter is_regular matches)
                (blank_table teams) 0 Hmaps (filter_Forall _ _ _ Hms) Hb) as H.
  pose proof (filter_length_le is_regular matches) as Hl.
  intros k r Hr. specialize (H k r Hr).
  unfold row_within in H. unfold safe_row, safe.
  change (2 ^ 37) with 137438953472 in H. change (2 ^ 15) with 32768 in Hlen.
  change (2 ^ 53) with 9007199254740992.
  lia.
Qed.

Lemma computeStandings_safe teams matches maps r :
  small_maps maps → small_matches matches →
  r ∈ computeStandings teams matches maps → safe_row r.
Proof.
  intros Hmaps Hms (r0 & s & Hr0 & ->)%computeStandings_elem.
  exact (counted_safe teams matches maps Hmaps Hms _ _ Hr0).
Qed.

(** X4: on an input small enough for every sum to be exact, the point
    differentials of the table sum to zero, there are as many wins as
    losses, and every counter of every row is an integer that a
    JavaScript number holds exactly. *)
Theorem table_is_balanced teams matches maps :
  small_maps maps → small_matches matches →
  total r_pd (computeStandings teams matches maps) = 0
  ∧ total r_wins (computeStandings teams matches maps)
    = total r_losses (computeStandings teams matches maps)
  ∧ Forall safe_row (computeStandings teams matches maps).
Proof.
  intros Hmaps Hms. split; [|split].
  - apply (total_balanced r_pd d_pd); try done.
    intros agg m. unfold side_delta, result_delta, pending_delta.
    destruct (played agg m); simpl; lia.
  - enough (total (λ r, r_wins r - r_losses r)
              (computeStandings teams matches maps) = 0) as H
      by (rewrite total_sub in H; lia).
    apply (total_balanced _ (λ d, d_wins d - d_losses d)); try done.
    + intros d r. simpl. lia.
    + intros agg m. unfold side_delta, result_delta, pending_delta.
      destruct (played agg m); simpl; repeat case_match; lia.
  - apply Forall_forall. intros r Hr.
    by apply (computeStandings_safe teams matches maps).
Qed.

Lemma table_is_balanced_witness :
  total r_pd (computeStandings two_groups_teams two_groups_matches []) = 0
  ∧ total r_wins (computeStandings two_groups_teams two_groups_matches [])
    = total r_losses (computeStandings two_groups_teams two_groups_matches [])
  ∧ Forall safe_row (computeStandings two_groups_teams two_groups_matches []).
Proof.
  apply (table_is_balanced two_groups_teams two_groups_matches []).
  - split; [by vm_compute|constructor].
  - split; [by vm_compute|].
    repeat constructor; by vm_compute.
Defined.

(** *** Elimination *)

Lemma sorted_lookup {A} (R : relation A) (l : list A) i j x y :
  StronglySorted R l → l !! i = Some x → l !! j = Some y → (i < j)%nat → R x y.
Proof.
  intros Hl. revert i j. induction Hl as [|a l Hl IH Ha]; intros i j Hi Hj Hij.
  - done.
  - destruct j as [|j]; [lia|]. destruct i as [|i]; simpl in *.
    + simplify_eq. rewrite Forall_forall in Ha.
      apply Ha. by eapply list_elem_of_lookup_2.
    + apply (IH i j); [done|done|lia].
Qed.

(** X5: when the table has at least six rows, none of its first six
    rows is flagged as eliminated; in a shorter table the threshold is
    zero, and a row is flagged exactly when its points plus 15 for every
    remaining match are negative. *)
Theorem top_six_not_eliminated teams matches maps i r :
  (i ≤ 5)%nat →
  computeStandings teams matches maps !! i = Some r →
  r_eliminated r
  = match computeStandings teams matches maps !! 5%nat with
    | Some _ => false
    | None => r_points r + r_remaining r * 15 <? 0
    end.
Proof.
  intros Hi Hr.
  rewrite (StandingsFacts.eliminated_against_whole_table teams matches maps r
             (list_elem_of_lookup_2 _ _ _ Hr)).
  unfold sixth_points.
  destruct (computeStandings teams matches maps !! 5%nat) as [sixth_row|] eqn:H5;
    [|done].
  pose proof (sorted_after_mark teams matches maps) as Hsorted.
  assert (0 ≤ r_remaining r) as Hrem.
  { destruct (computeStandings_elem teams matches maps r
                (list_elem_of_lookup_2 _ _ _ Hr)) as (r0 & s & Hr0 & ->).
    by destruct (counted_sound teams matches maps _ _ Hr0)
      as (_ & _ & _ & ? & _). }
  simpl. apply Z.ltb_ge.
  assert (r_points sixth_row ≤ r_points r); [|lia].
  destruct (decide (i = 5%nat)) as [->|Hne]; [by simplify_eq|].
  assert (ranked_before r sixth_row) as Hrb.
  { apply (sorted_lookup ranked_before _ i 5%nat r sixth_row Hsorted Hr H5).
    lia. }
  unfold ranked_before in Hrb. lia.
Qed.

Lemma top_six_not_eliminated_witness :
  r_eliminated (mkRow 4 "Delta" "A" 1 0 1 7 (-6) 0 false) = false.
Proof.
  apply (top_six_not_eliminated two_groups_teams two_groups_matches [] 5
           (mkRow 4 "Delta" "A" 1 0 1 7 (-6) 0 false));
    [lia | reflexivity].
Defined.

(** *** Teams without a match *)

Lemma account_lookup_other agg (b : gmap N StandingRow) m k :
  m_team1_id m ≠ Some k → m_team2_id m ≠ Some k →
  account agg b m !! k = b !! k.
Proof.
  intros H1 H2.
  destruct (m_team1_id m) as [k1|] eqn:E1; [|unfold account; by rewrite E1].
  destruct (m_team2_id m) as [k2|] eqn:E2;
    [|unfold account; by rewrite E1, E2].
  destruct (b !! k1) as [x1|] eqn:Hx1;
    [|unfold account; by rewrite E1, E2, Hx1].
  destruct (b !! k2) as [x2|] eqn:Hx2;
    [|unfold account; by rewrite E1, E2, Hx1, Hx2].
  rewrite (account_bump agg b m k1 k2) by eauto.
  rewrite !lookup_alter_ne; [done|congruence|congruence].
Qed.

(** X6: a team that no regular match names has an all-zero row. *)
Theorem idle_team_has_zero_row teams matches maps r :
  r ∈ computeStandings teams matches maps →
  (∀ m, m ∈ matches → is_regular m = true →
     m_team1_id m ≠ Some (r_id r) ∧ m_team2_id m ≠ Some (r_id r)) →
  r_played r = 0 ∧ r_wins r = 0 ∧ r_losses r = 0 ∧ r_points r = 0
  ∧ r_pd r = 0 ∧ r_remaining r = 0.
Proof.
  intros (r0 & s & Hr0 & ->)%computeStandings_elem Hidle.
  change (r_id (mark s r0)) with (r_id r0) in *.
  assert (blank_table teams !! r_id r0 = Some r0) as Hb.
  { rewrite <- Hr0. unfold counted. symmetry.
    assert (∀ m, m ∈ List.filter is_regular matches →
              m_team1_id m ≠ Some (r_id r0) ∧ m_team2_id m ≠ Some (r_id r0))
      as Hidle'.
    { intros m [Hm Hreg]%list_elem_of_In%List.filter_In.
      apply Hidle; [by apply list_elem_of_In | done]. }
    revert Hidle'. generalize (blank_table teams).
    induction (List.filter is_regular matches) as [|m ms IH]; intros b Hms;
      simpl; [done|].
    rewrite IH by (intros m' Hm'; apply Hms; by right).
    apply account_lookup_other; apply Hms; left. }
  assert (∃ t, r0 = blank t) as [t ->]; [|done].
  revert Hb.
  apply (blank_table_Forall (λ _ r, ∃ t, r = blank t)). eauto.
Qed.

Lemma idle_team_has_zero_row_witness :
  let r := mkRow 7 "Golf" "B" 0 0 0 0 0 0 false in
  r_played r = 0 ∧ r_wins r = 0 ∧ r_losses r = 0 ∧ r_points r = 0
  ∧ r_pd r = 0 ∧ r_remaining r = 0.
Proof.
  apply (idle_team_has_zero_row two_groups_teams [result 1 1 2 13 7] []).
  - vm_compute. do 6 right. left.
  - intros m ->%list_elem_of_singleton _. split; discriminate.
Defined.

(** *** The order of the inputs *)

Lemma filter_Permutation {A} (P : A → bool) (l l' : list A) :
  l ≡ₚ l' → List.filter P l ≡ₚ List.filter P l'.
Proof.
  induction 1 as [|x l l' _ IH|x y l|l l' l'' _ IH1 _ IH2]; simpl.
  - done.
  - destruct (P x); [by constructor | done].
  - destruct (P x), (P y); try done. apply perm_swap.
  - by etrans.
Qed.

Lemma summed_rounds_Permutation rows rows' :
  rows ≡ₚ rows' → summed_rounds rows = summed_rounds rows'.
Proof.
  unfold summed_rounds. generalize (0, 0).
  intros acc H. revert acc.
  induction H as [|x l l' _ IH|x y l|l l' l'' _ IH1 _ IH2]; intros acc; simpl.
  - done.
  - apply IH.
  - f_equal. f_equal; lia.
  - by rewrite IH1.
Qed.

Lemma roundAgg_Permutation maps maps' :
  maps ≡ₚ maps' → roundAgg maps = roundAgg maps'.
Proof.
  intros Hp. apply map_eq. intros k. unfold roundAgg.
  rewrite !StandingsFacts.foldl_add_map_lookup, lookup_empty.
  cbn [default]. pose proof (filter_Permutation (λ row, (mr_match_id row =? k)%N) _ _ Hp)
    as Hf.
  fold (match_rows maps k) in Hf. fold (match_rows maps' k) in Hf.
  pose proof (summed_rounds_Permutation _ _ Hf) as Hs.
  unfold summed_rounds in Hs.
  destruct (match_rows maps k) as [|x l] eqn:E, (match_rows maps' k) as [|x' l'] eqn:E'.
  - done.
  - by apply Permutation_nil_cons in Hf.
  - symmetry in Hf. by apply Permutation_nil_cons in Hf.
  - f_equal. exact Hs.
Qed.

(** X7: on map rows small enough for their sums to be exact, the table
    does not depend on the order of the map rows. *)
Theorem map_rows_order_irrelevant teams matches maps maps' :
  small_maps maps → maps ≡ₚ maps' →
  computeStandings teams matches maps = computeStandings teams matches maps'.
Proof.
  intros _ Hp. unfold computeStandings. by rewrite (roundAgg_Permutation _ _ Hp).
Qed.

Lemma map_rows_order_irrelevant_witness :
  computeStandings two_groups_teams two_groups_matches
    [mkMapRow 1 (Some 13) (Some 7); mkMapRow 2 (Some 7) (Some 13)]
  = computeStandings two_groups_teams two_groups_matches
      [mkMapRow 2 (Some 7) (Some 13); mkMapRow 1 (Some 13) (Some 7)].
Proof.
  apply map_rows_order_irrelevant; [|apply perm_swap].
  split; [by vm_compute|]. repeat constructor; by vm_compute.
Defined.

Lemma alter_bump_comm d d' k k' (b : gmap N StandingRow) :
  alter (bump d) k (alter (bump d') k' b)
  = alter (bump d') k' (alter (bump d) k b).
Proof.
  apply map_eq. intros j.
  destruct (decide (k = j)) as [E|E], (decide (k' = j)) as [E'|E']; subst;
    repeat (rewrite lookup_alter_eq || rewrite lookup_alter_ne by done);
    try done.
  destruct (b !! j) as [r|]; [|done]. simpl. f_equal. destruct r.
  cbv beta iota delta
    [bump r_id r_name r_group_name r_played r_wins r_losses r_points r_pd
     r_remaining r_eliminated].
  f_equal; lia.
Qed.

(** On two tables with the same keys a match acts in the same way. *)
Lemma account_same_keys agg (b b' : gmap N StandingRow) m :
  (∀ k, is_Some (b' !! k) ↔ is_Some (b !! k)) →
  (account agg b m = b ∧ account agg b' m = b')
  ∨ ∃ k1 k2,
      account agg b m
      = alter (bump (side_delta agg m false)) k2
          (alter (bump (side_delta agg m true)) k1 b)
      ∧ account agg b' m
        = alter (bump (side_delta agg m false)) k2
            (alter (bump (side_delta agg m true)) k1 b').
Proof.
  intros Hdom.
  destruct (m_team1_id m) as [k1|] eqn:H1;
    [|left; unfold account; by rewrite H1].
  destruct (m_team2_id m) as [k2|] eqn:H2;
    [|left; unfold account; by rewrite H1, H2].
  destruct (b !! k1) as [x1|] eqn:Hx1.
  - destruct (b !! k2) as [x2|] eqn:Hx2.
    + right. exists k1, k2.
      split; apply account_bump; rewrite ?Hdom, ?Hx1, ?Hx2; eauto.
    + left. assert (b' !! k2 = None) as Hx2'.
      { apply eq_None_not_Some. rewrite Hdom, Hx2. by intros [? ?]. }
      unfold account. rewrite H1, H2, Hx1, Hx2, Hx2'.
      split; [done|]. by destruct (b' !! k1).
  - left. assert (b' !! k1 = None) as Hx1'.
    { apply eq_None_not_Some. rewrite Hdom, Hx1. by intros [? ?]. }
    unfold account. by rewrite H1, H2, Hx1, Hx1'.
Qed.

Lemma account_comm agg (b : gmap N StandingRow) m1 m2 :
  account agg (account agg b m1) m2 = account agg (account agg b m2) m1.
Proof.
  destruct (account_same_keys agg b (account agg b m1) m2
              (λ k, account_is_Some agg b m1 k))
    as [[E2 E12]|(k1 & k2 & E2 & E12)];
  destruct (account_same_keys agg b (account agg b m2) m1
              (λ k, account_is_Some agg b m2 k))
    as [[E1 E21]|(j1 & j2 & E1 & E21)];
  rewrite E12, E21.
  - by rewrite E1, E2.
  - by rewrite E2.
  - by rewrite E1.
  - rewrite E1, E2.
    set (a1 := bump (side_delta agg m1 true)).
    rewrite (alter_bump_comm (side_delta agg m2 true) (side_delta agg m1 false)).
    rewrite (alter_bump_comm (side_delta agg m2 false) (side_delta agg m1 false)).
    f_equal.
    rewrite (alter_bump_comm (side_delta agg m2 true) (side_delta agg m1 true)).
    by rewrite (alter_bump_comm (side_delta agg m2 false) (side_delta agg m1 true)).
Qed.

Lemma foldl_account_Permutation agg ms ms' :
  ms ≡ₚ ms' →
  ∀ b : gmap N StandingRow, foldl (account agg) b ms = foldl (account agg) b ms'.
Proof.
  induction 1 as [|x l l' _ IH|x y l|l l' l'' _ IH1 _ IH2]; intros b; simpl.
  - done.
  - apply IH.
  - by rewrite account_comm.
  - by rewrite IH1.
Qed.

(** X8: on an input small enough for every sum to be exact, the table
    does not depend on the order of the matches. *)
Theorem matches_order_irrelevant teams matches matches' maps :
  small_maps maps → small_matches matches → matches ≡ₚ matches' →
  computeStandings teams matches maps = computeStandings teams matches' maps.
Proof.
  intros _ _ Hp. unfold computeStandings.
  by rewrite (foldl_account_Permutation _ _ _
                (filter_Permutation is_regular _ _ Hp)).
Qed.

Lemma matches_order_irrelevant_witness :
  computeStandings two_groups_teams
    [result 1 1 2 13 7; result 2 2 3 13 11] []
  = computeStandings two_groups_teams
      [result 2 2 3 13 11; result 1 1 2 13 7] [].
Proof.
  apply matches_order_irrelevant; [| |apply perm_swap].
  - split; [by vm_compute|constructor].
  - split; [by vm_compute|]. repeat constructor; by vm_compute.
Defined.

(** *** The pages that show the table *)

Lemma group_rows_lookup rows (groups : gmap string (list StandingRow)) g :
  foldl (λ groups r,
           <[group_key r := default [] (groups !! group_key r) ++ [r]]> groups)
        groups rows !! g
  = match group_table rows g with
    | [] => groups !! g
    | l => Some (default [] (groups !! g) ++ l)
    end.
Proof.
  revert groups. induction rows as [|r rows IH]; intros groups; [done|].
  cbn [foldl]. rewrite IH. unfold group_table. cbn [List.filter].
  destruct (String.eqb (group_key r) g) eqn:E.
  - apply String.eqb_eq in E. subst g. rewrite lookup_insert_eq. simpl.
    destruct (List.filter _ rows); [done|]. by rewrite <- app_assoc.
  - apply String.eqb_neq in E. by rewrite lookup_insert_ne.
Qed.

Lemma push_rows_None rows : foldl push_row None rows = None.
Proof. by induction rows. Qed.

Lemma push_rows_lookup rows : ∀ (gs : gmap string (list StandingRow)),
  match foldl push_row (Some gs) rows with
  | Some gs' =>
    (∀ r, r ∈ rows → group_key r ∉ inherited)
    ∧ ∀ g, gs' !! g
           = match group_table rows g with
             | [] => gs !! g
             | l => Some (default [] (gs !! g) ++ l)
             end
  | None => ∃ r, r ∈ rows ∧ group_key r ∈ inherited
  end.
Proof.
  induction rows as [|r rows IH]; intros gs.
  - cbn [foldl]. split; [by intros r ?%elem_of_nil|done].
  - cbn [foldl push_row].
    destruct (decide (group_key r ∈ inherited)) as [Hin|Hin].
    + rewrite (bool_decide_eq_true_2 _ Hin), push_rows_None.
      exists r. split; [left|done].
    + rewrite (bool_decide_eq_false_2 _ Hin).
      specialize (IH (<[group_key r := default [] (gs !! group_key r) ++ [r]]> gs)).
      destruct (foldl push_row _ rows) as [gs'|].
      * destruct IH as [Hall Hlook]. split.
        { intros r' [->|Hr']%elem_of_cons; auto. }
        intros g. rewrite Hlook. unfold group_table. cbn [List.filter].
        destruct (String.eqb (group_key r) g) eqn:E.
        -- apply String.eqb_eq in E. subst g. rewrite lookup_insert_eq.
           simpl.
           destruct (List.filter _ rows); [done|]. by rewrite <- app_assoc.
        -- apply String.eqb_neq in E. by rewrite lookup_insert_ne.
      * destruct IH as (r' & Hr' & Hin'). exists r'. split; [by right|done].
Qed.

Lemma groups_lookup rows :
  match groups rows with
  | Some gs =>
    (∀ r, r ∈ rows → group_key r ∉ inherited)
    ∧ ∀ g, gs !! g
           = match group_table rows g with
             | [] => None
             | l => Some l
             end
  | None => ∃ r, r ∈ rows ∧ group_key r ∈ inherited
  end.
Proof.
  unfold groups. pose proof (push_rows_lookup rows ∅) as H.
  destruct (foldl push_row (Some ∅) rows) as [gs|]; [|done].
  destruct H as [Hall Hlook]. split; [done|].
  intros g. rewrite Hlook, lookup_empty. by destruct (group_table rows g).
Qed.

(** X9: the standings page throws when the group key of a row is a
    name that every object inherits (as [constructor]); otherwise it
    files every row under its group key and keeps the order of the
    table: the list of a group is the sub-list of the rows with that
    key, and a key without rows has no list. *)
Theorem groups_are_filters_or_throw rows :
  match groups rows with
  | Some gs =>
    (∀ r, r ∈ rows → group_key r ∉ inherited)
    ∧ ∀ g, gs !! g
           = match group_table rows g with
             | [] => None
             | l => Some l
             end
  | None => ∃ r, r ∈ rows ∧ group_key r ∈ inherited
  end.
Proof. apply groups_lookup. Qed.

Lemma filter_sorted {A} (R : relation A) (P : A → bool) l :
  StronglySorted R l → StronglySorted R (List.filter P l).
Proof.
  induction 1 as [|a l Hl IH Ha]; simpl; [constructor|].
  destruct (P a); [|done]. constructor; [done|].
  rewrite Forall_forall in *. intros x [Hx _]%list_elem_of_In%List.filter_In.
  by apply Ha, list_elem_of_In.
Qed.

(** When the page does not throw, [groups] is the object that
    [group_rows] describes. *)
Lemma groups_Some_group_rows rows gs :
  groups rows = Some gs → gs = group_rows rows.
Proof.
  intros Hgs. pose proof (groups_lookup rows) as H.
  rewrite Hgs in H. destruct H as [_ Hlook].
  apply map_eq. intros g. rewrite Hlook. unfold group_rows.
  rewrite group_rows_lookup, lookup_empty. by destruct (group_table rows g).
Qed.

(** The lists of the object the page is rendered from are in ranking
    order. *)
Lemma page_groups_are_ranked teams matches maps gs g l :
  groups (computeStandings teams matches maps) = Some gs →
  gs !! g = Some l → StronglySorted ranked_before l.
Proof.
  intros Hgs Hl. pose proof (groups_lookup (computeStandings teams matches maps))
    as H.
  rewrite Hgs in H. destruct H as [_ Hlook]. rewrite Hlook in Hl.
  assert (l = group_table (computeStandings teams matches maps) g) as ->.
  { destruct (group_table _ g); by simplify_eq/=. }
  apply filter_sorted, sorted_after_mark.
Qed.

Lemma constructor_group_throws :
  groups [mkRow 1 "Alpha" "constructor" 0 0 0 0 0 0 false] = None.
Proof. reflexivity. Qed.

(** X10: the list the standings page shows for a group is itself in
    ranking order. *)
Theorem group_tables_are_ranked teams matches maps g l :
  group_rows (computeStandings teams matches maps) !! g = Some l →
  StronglySorted ranked_before l.
Proof.
  unfold group_rows. rewrite group_rows_lookup, lookup_empty.
  intros Hl.
  assert (l = group_table (computeStandings teams matches maps) g) as ->.
  { destruct (group_table _ g); by simplify_eq/=. }
  apply filter_sorted, sorted_after_mark.
Qed.

Lemma group_tables_are_ranked_witness :
  StronglySorted ranked_before
    [mkRow 8 "Hotel" "B" 1 1 0 15 13 0 false;
     mkRow 7 "Golf" "B" 1 0 1 0 (-13) 0 true].
Proof.
  apply (group_tables_are_ranked two_groups_teams two_groups_matches [] "B").
  by vm_compute.
Defined.

Lemma metrics_lookup rows r :
  NoDup (r_id <$> rows) → r ∈ rows →
  metrics rows !! r_id r = Some (r_points r, r_pd r).
Proof.
  unfold metrics. induction rows as [|x rows IH] using rev_ind; intros Hnd Hr.
  - by apply elem_of_nil in Hr.
  - rewrite foldl_snoc. rewrite fmap_app in Hnd.
    apply NoDup_app in Hnd as (Hnd & Hx & _).
    apply elem_of_app in Hr as [Hr| ->%list_elem_of_singleton].
    + rewrite lookup_insert_ne; [by apply IH|].
      intros E. apply (Hx (r_id r)); [by apply list_elem_of_fmap_2|].
      rewrite <- E. simpl. left.
    + by rewrite lookup_insert_eq.
Qed.

(** X11: the teams page finds the points and the differential of every
    team of the list under the id of the team. *)
Theorem metrics_cover_teams teams matches maps t :
  t ∈ teams →
  ∃ r, r ∈ computeStandings teams matches maps
    ∧ r_id r = t_id t
    ∧ metrics (computeStandings teams matches maps) !! t_id t
      = Some (r_points r, r_pd r).
Proof.
  intros Ht.
  assert (t_id t ∈ r_id <$> computeStandings teams matches maps) as Hin.
  { rewrite ids_Permutation.
    assert (is_Some (counted teams matches maps !! t_id t)) as [r Hr]
      by (apply counted_is_Some; by apply list_elem_of_fmap_2).
    apply list_elem_of_fmap. exists (t_id t, r). split; [done|].
    by apply elem_of_map_to_list. }
  apply list_elem_of_fmap in Hin as (r & Hid & Hr).
  exists r. split; [done|]. split; [done|].
  rewrite Hid. apply metrics_lookup; [|done].
  rewrite ids_Permutation. apply NoDup_fst_map_to_list.
Qed.

Lemma metrics_cover_teams_witness :
  ∃ r, r ∈ computeStandings two_groups_teams two_groups_matches []
    ∧ r_id r = 7%N
    ∧ metrics (computeStandings two_groups_teams two_groups_matches []) !! 7%N
      = Some (r_points r, r_pd r).
Proof.
  apply (metrics_cover_teams two_groups_teams two_groups_matches []
           (mkTeam 7 "Golf" "B")).
  unfold two_groups_teams. do 6 right. left.
Defined.

End TablesFacts.

(** ** Further properties of the map-save route *)

Module SaveFacts.
Import JS DB MapSave Examples DBFacts MapSaveFacts AdminFacts.

(** X12: the bracket settles after two runs of the propagation: any
    further run of the same propagation leaves the table as the second
    run left it. *)
Theorem propagation_settles info w ms n :
  Nat.iter (2 + n) (propagate info w) ms = Nat.iter 2 (propagate info w) ms.
Proof.
  induction n as [|n IH]; [done|].
  replace (2 + S n)%nat with (S (2 + n)) by lia.
  rewrite Nat.iter_succ, IH. cbn [Nat.iter nat_rect].
  apply propagate_stable_after_two_runs.
Qed.

Lemma truthy_false (w : N) : truthy (Some w) = false → w = 0%N.
Proof. simpl. destruct (N.eqb_spec w 0); [done|]. discriminate. Qed.

Lemma is_slot_inj r1 p1 r2 p2 e :
  is_slot r1 p1 e = true → is_slot r2 p2 e = true → (r1, p1) = (r2, p2).
Proof.
  unfold is_slot. rewrite !andb_true_iff, !bool_decide_eq_true.
  intros [[_ H1] H2] [[_ H3] H4]. congruence.
Qed.

Lemma is_slot_playoff_row wk t1 t2 r p k r' p' :
  is_slot r' p' (playoff_row wk t1 t2 r p k) = true → (r', p') = (r, p).
Proof.
  unfold is_slot, playoff_row. cbn [playoff_round bracket_pos].
  rewrite !andb_true_iff, !bool_decide_eq_true.
  intros [[_ H1] H2]. congruence.
Qed.

Lemma slot_match_update_other r p k u ms nm :
  NoDup (mid <$> ms) → nm ∈ ms → mid nm = k → is_slot r p nm = false →
  slot_match r p (update_eq_id k u ms) = slot_match r p ms.
Proof.
  intros Hnd Hnm Hk Hno. rewrite slot_match_update_eq_id.
  destruct (slot_match r p ms) as [e|] eqn:He; [|done]. simpl.
  apply slot_match_elem in He as [He Hs].
  destruct (N.eqb_spec (mid e) k) as [E|]; [|done].
  assert (e = nm) as -> by (apply (NoDup_mid_inj ms); congruence).
  congruence.
Qed.

Lemma propagate_other_cells info w ms round pos :
  NoDup (mid <$> ms) →
  (round, pos) ≠ (next_round info, same_pos info) →
  slot_match round pos (propagate info w ms) = slot_match round pos ms.
Proof.
  intros Hnd Hne.
  destruct (decide (match_type info = Some "playoff")) as [Ht|];
    [|by rewrite propagate_skip by auto].
  destruct (decide (same_pos info = 0));
    [by rewrite propagate_skip by auto|].
  destruct w as [w|]; [|done].
  destruct (truthy (Some w)) eqn:Hw; [|by rewrite propagate_skip by auto].
  assert (w ≠ 0%N) by (intros ->; discriminate).
  rewrite propagate_unfold by done.
  destruct (slot_match (next_round info) (same_pos info) ms) as [nm|] eqn:Hnm.
  - apply slot_match_elem in Hnm as [Hin Hs].
    assert (is_slot round pos nm = false) as Hno.
    { destruct (is_slot round pos nm) eqn:E; [|done].
      destruct Hne. eapply is_slot_inj; eauto. }
    destruct (negb (truthy (team1_id nm)));
      [|destruct (negb (truthy (team2_id nm)))];
      [apply (slot_match_update_other _ _ _ _ _ nm); auto
      |apply (slot_match_update_other _ _ _ _ _ nm); auto
      |reflexivity].
  - unfold insert, slot_match. rewrite find_snoc.
    destruct (List.find _ ms); [done|].
    destruct (is_slot round pos _) eqn:E; [|done].
    destruct Hne. by apply is_slot_playoff_row in E.
Qed.

(** X13: the propagation writes at one cell of the bracket only, the
    one of the next round at the same position: the match found at any
    other cell is the same before and after. *)
Theorem propagation_keeps_other_cells info w ms round pos :
  NoDup (mid <$> ms) →
  (round, pos) ≠ (next_round info, same_pos info) →
  slot_match round pos (propagate info w ms) = slot_match round pos ms.
Proof. apply propagate_other_cells. Qed.

Lemma propagation_keeps_other_cells_witness :
  slot_match 1 1 (propagate round1_match (Some 10%N) bracket)
  = slot_match 1 1 bracket.
Proof.
  apply (propagation_keeps_other_cells round1_match (Some 10%N) bracket 1 1).
  - apply (bool_decide_unpack _). by vm_compute.
  - vm_compute. discriminate.
Defined.

(** *** The rows of [match_maps] *)

Lemma filter_filter_swap {A} (P Q : A → bool) l :
  List.filter P (List.filter Q l) = List.filter (λ x, Q x && P x) l.
Proof.
  induction l as [|x l IH]; [done|]. simpl.
  destruct (Q x); simpl; [destruct (P x)|]; by rewrite IH.
Qed.

Lemma filter_none {A} (P : A → bool) l :
  (∀ x, x ∈ l → P x = false) → List.filter P l = [].
Proof.
  induction l as [|x l IH]; intros H; [done|]. simpl.
  rewrite (H x) by left. apply IH. intros y Hy. apply H. by right.
Qed.

Lemma filter_all {A} (P : A → bool) l :
  (∀ x, x ∈ l → P x = true) → List.filter P l = l.
Proof.
  induction l as [|x l IH]; intros H; [done|]. simpl.
  rewrite (H x) by left. f_equal. apply IH. intros y Hy. apply H. by right.
Qed.

Lemma save_map_twice matchId d maps :
  save_map matchId d (save_map matchId d maps) = save_map matchId d maps.
Proof.
  unfold save_map at 1. unfold save_map at 1.
  rewrite List.filter_app. cbn [List.filter map_row map_match_id map_index].
  rewrite N.eqb_refl, Z.eqb_refl. cbn [andb negb]. rewrite app_nil_r.
  unfold save_map. f_equal.
  apply filter_all. intros x [_ Hx]%list_elem_of_In%List.filter_In. exact Hx.
Qed.

(** X14: saving a map replaces the row of its index: afterwards the
    match has one row with that index, the saved one, next to its rows of
    the other indexes; the rows of the other matches are kept, and saving
    the same data again changes nothing. *)
Theorem save_map_replaces_one_row matchId d maps :
  List.filter (λ m, map_index m =? index d) (maps_of matchId (save_map matchId d maps))
    = [map_row matchId d]
  ∧ List.filter (λ m, negb (map_index m =? index d))
      (maps_of matchId (save_map matchId d maps))
    = List.filter (λ m, negb (map_index m =? index d)) (maps_of matchId maps)
  ∧ (∀ other, other ≠ matchId →
       maps_of other (save_map matchId d maps) = maps_of other maps)
  ∧ save_map matchId d (save_map matchId d maps) = save_map matchId d maps.
Proof.
  split; [|split; [|split]].
  - rewrite maps_of_save_map, List.filter_app.
    cbn [List.filter map_row map_index]. rewrite Z.eqb_refl.
    unfold other_maps. rewrite filter_filter_swap, filter_none; [done|].
    intros x _. destruct (map_match_id x =? matchId)%N, (map_index x =? index d); done.
  - rewrite maps_of_save_map, List.filter_app.
    cbn [List.filter map_row map_index]. rewrite Z.eqb_refl. cbn [negb].
    rewrite app_nil_r. unfold other_maps, maps_of.
    rewrite !filter_filter_swap. apply List.filter_ext. intros x.
    destruct (map_match_id x =? matchId)%N, (map_index x =? index d); done.
  - intros other Hne. unfold maps_of, save_map.
    rewrite List.filter_app. cbn [List.filter map_row map_match_id].
    rewrite (proj2 (N.eqb_neq matchId other)) by done.
    rewrite app_nil_r, filter_filter_swap. apply List.filter_ext. intros x.
    destruct (N.eqb_spec (map_match_id x) matchId) as [->|]; [|done].
    rewrite (proj2 (N.eqb_neq matchId other)) by done.
    cbn [andb negb]. by rewrite andb_false_r.
  - apply save_map_twice.
Qed.

(** *** The rows of [matches] *)

Lemma wins_nonneg team maps : 0 ≤ wins team maps.
Proof. unfold wins. lia. Qed.

Lemma wins_disjoint a b maps :
  a ≠ b → wins a maps + wins b maps ≤ Z.of_nat (length maps).
Proof.
  intros Hne. unfold wins. induction maps as [|m maps IH]; [done|].
  cbn [List.filter length]. unfold strict_eq in *.
  destruct (decide (map_winner_id m = a)) as [Ea|Ea];
    destruct (decide (map_winner_id m = b)) as [Eb|Eb];
    [congruence|..];
    rewrite ?(bool_decide_eq_true_2 _ Ea), ?(bool_decide_eq_false_2 _ Ea),
      ?(bool_decide_eq_true_2 _ Eb), ?(bool_decide_eq_false_2 _ Eb);
    cbn [length]; lia.
Qed.

(** X15: after a save, the scores written on a match whose two sides
    differ are counts of maps: neither is negative, together they do not
    exceed [maps_played], and [maps_played] counts at least the saved
    map. *)
Theorem saved_scores_are_map_counts db matchId d info :
  matchId ≠ 0%N →
  single (List.filter (λ r, (mid r =? matchId)%N) (matches db)) = Some info →
  team1_id info ≠ team2_id info →
  ∀ r, r ∈ matches (POST true matchId (Some d) db).1 → mid r = matchId →
    ∃ s1 s2 n,
      score_t1 r = Some s1 ∧ score_t2 r = Some s2 ∧ maps_played r = Some n
      ∧ 0 ≤ s1 ∧ 0 ≤ s2 ∧ s1 + s2 ≤ n ∧ 1 ≤ n.
Proof.
  intros H0 Hinfo Hne r Hr Hk.
  destruct (POST_match_rows db matchId d info H0 Hinfo) as [_ Hrows].
  destruct (Hrows r Hr Hk) as (_ & _ & H1 & H2 & Hn).
  eexists _, _, _. repeat split; try eassumption.
  - apply wins_nonneg.
  - apply wins_nonneg.
  - by apply wins_disjoint.
  - rewrite (POST_unfold db matchId d info H0 Hinfo). cbn [fst match_maps].
    rewrite maps_of_save_map, length_app. cbn [length]. lia.
Qed.

Lemma saved_scores_are_map_counts_witness :
  let saved := matches (POST true 1 (Some (map_won_by 1 (Some 20%N))) one_map_saved).1 in
  (∃ r, r ∈ saved ∧ mid r = 1%N)
  ∧ ∀ r, r ∈ saved → mid r = 1%N →
      ∃ s1 s2 n,
        score_t1 r = Some s1 ∧ score_t2 r = Some s2 ∧ maps_played r = Some n
        ∧ 0 ≤ s1 ∧ 0 ≤ s2 ∧ s1 + s2 ≤ n ∧ 1 ≤ n.
Proof.
  split.
  - eexists. split; [left|reflexivity].
  - apply (saved_scores_are_map_counts one_map_saved 1
             (map_won_by 1 (Some 20%N)) league_match); done.
Defined.

Lemma propagate_rows info w ms :
  ∃ k p created,
    propagate info w ms = update_eq_id k p ms ++ created
    ∧ (created = [] ∨ ∃ row, created = [row] ∧ mid row = fresh_id ms).
Proof.
  assert (∃ k p created,
            ms = update_eq_id k p ms ++ created
            ∧ (created = [] ∨ ∃ row, created = [row] ∧ mid row = fresh_id ms))
    as Hsame.
  { exists 0%N, no_change, []. rewrite update_eq_id_no_change, app_nil_r. auto. }
  destruct (decide (match_type info = Some "playoff")) as [Ht|];
    [|by rewrite propagate_skip by auto].
  destruct (decide (same_pos info = 0));
    [by rewrite propagate_skip by auto|].
  destruct w as [w|]; [|done].
  destruct (truthy (Some w)) eqn:Hw; [|by rewrite propagate_skip by auto].
  assert (w ≠ 0%N) by (intros ->; discriminate).
  rewrite propagate_unfold by done.
  destruct (slot_match (next_round info) (same_pos info) ms) as [nm|] eqn:Hnm.
  - destruct (negb (truthy (team1_id nm)));
      [|destruct (negb (truthy (team2_id nm)))]; try done;
      eexists _, _, []; rewrite app_nil_r; eauto.
  - exists 0%N, no_change. eexists. rewrite update_eq_id_no_change.
    split; [reflexivity|]. right. eexists. split; [reflexivity|done].
Qed.

Lemma update_eq_id_lookup k p ms i r :
  ms !! i = Some r →
  ∃ r', update_eq_id k p ms !! i = Some r'
    ∧ mid r' = mid r ∧ week r' = week r ∧ group_name r' = group_name r
    ∧ match_type r' = match_type r ∧ playoff_round r' = playoff_round r
    ∧ bracket_pos r' = bracket_pos r ∧ bracket_label r' = bracket_label r.
Proof.
  intros Hi. unfold update_eq_id. rewrite list_lookup_fmap, Hi. simpl.
  eexists. split; [done|]. by destruct (mid r =? k)%N.
Qed.

Lemma POST_rows authorized matchId mapData db :
  ∃ k1 p1 k2 p2 created,
    matches (POST authorized matchId mapData db).1
    = update_eq_id k2 p2 (update_eq_id k1 p1 (matches db)) ++ created
    ∧ (created = []
       ∨ ∃ row, created = [row] ∧ mid row ∉ mid <$> matches db).
Proof.
  assert (∃ k1 p1 k2 p2 created,
    matches db = update_eq_id k2 p2 (update_eq_id k1 p1 (matches db)) ++ created
    ∧ (created = [] ∨ ∃ row, created = [row] ∧ mid row ∉ mid <$> matches db))
    as Hsame.
  { exists 0%N, no_change, 0%N, no_change, [].
    rewrite !update_eq_id_no_change, app_nil_r. auto. }
  unfold POST. destruct authorized; [|done]. cbn [negb].
  destruct mapData as [d|]; [|done].
  destruct (matchId =? 0)%N; [done|].
  destruct (single _) as [info|]; [|done]. cbn [fst matches].
  destruct (propagate_rows info
              (finalWinner info (maps_of matchId (save_map matchId d (match_maps db))))
              (update_eq_id matchId
                 (payload info (maps_of matchId (save_map matchId d (match_maps db))))
                 (matches db)))
    as (k & p & created & -> & Hc).
  eexists _, _, _, _, _. split; [reflexivity|].
  destruct Hc as [->|(row & -> & Hrow)]; [by left|right].
  exists row. split; [done|]. rewrite Hrow, <- (mid_update_eq_id matchId
    (payload info (maps_of matchId (save_map matchId d (match_maps db))))).
  apply fresh_id_not_in.
Qed.

(** X16: whatever the request, the route deletes and reorders no row of
    [matches]: every row keeps its place, its key, its week, its group,
    its type and its place in the bracket; at most one row is added, at
    the end, under a key no row had, so keys that were distinct stay
    distinct. *)
Theorem POST_keeps_the_rows authorized matchId mapData db :
  let saved := matches (POST authorized matchId mapData db).1 in
  (∀ i r, matches db !! i = Some r →
     ∃ r', saved !! i = Some r'
       ∧ mid r' = mid r ∧ week r' = week r ∧ group_name r' = group_name r
       ∧ match_type r' = match_type r ∧ playoff_round r' = playoff_round r
       ∧ bracket_pos r' = bracket_pos r ∧ bracket_label r' = bracket_label r)
  ∧ (length (matches db) ≤ length saved ≤ length (matches db) + 1)%nat
  ∧ (NoDup (mid <$> matches db) → NoDup (mid <$> saved)).
Proof.
  cbn zeta.
  destruct (POST_rows authorized matchId mapData db)
    as (k1 & p1 & k2 & p2 & created & -> & Hc).
  split; [|split].
  - intros i r Hi.
    destruct (update_eq_id_lookup k1 p1 _ i r Hi) as (r1 & Hi1 & ?).
    destruct (update_eq_id_lookup k2 p2 _ i r1 Hi1) as (r2 & Hi2 & ?).
    exists r2. rewrite lookup_app_l by (by eapply lookup_lt_Some).
    destruct_and!. repeat split; congruence.
  - rewrite length_app. unfold update_eq_id. rewrite !length_fmap.
    destruct Hc as [->|(row & -> & _)]; simpl; lia.
  - intros Hnd. rewrite fmap_app, !mid_update_eq_id.
    destruct Hc as [->|(row & -> & Hrow)]; [by rewrite app_nil_r|].
    apply NoDup_app. split; [done|]. split.
    + intros x Hx Hx'. apply list_elem_of_singleton in Hx'. congruence.
    + apply NoDup_singleton.
Qed.

Lemma filter_mid_none k (ms : list MatchRow) :
  k ∉ mid <$> ms → List.filter (λ r, (mid r =? k)%N) ms = [].
Proof.
  intros Hk. apply filter_none. intros x Hx.
  apply N.eqb_neq. intros E. apply Hk. rewrite <- E. by apply list_elem_of_fmap_2.
Qed.

(** X17: a save for a key that no match has is not refused: the route
    answers ok, the map row is stored all the same, and [matches] is left
    as it was. *)
Theorem save_for_missing_match_is_accepted db matchId d :
  matchId ≠ 0%N → matchId ∉ mid <$> matches db →
  POST true matchId (Some d) db
  = (mkDb (save_map matchId d (match_maps db)) (matches db), Ok).
Proof.
  intros H0 Hk. unfold POST. cbn [negb].
  rewrite (proj2 (N.eqb_neq matchId 0)) by done.
  by rewrite filter_mid_none.
Qed.

Lemma save_for_missing_match_is_accepted_witness :
  POST true 7 (Some (map_won_by 0 (Some 10%N))) (mkDb [] [league_match])
  = (mkDb [map_row 7 (map_won_by 0 (Some 10%N))] [league_match], Ok).
Proof.
  apply (save_for_missing_match_is_accepted (mkDb [] [league_match]) 7
           (map_won_by 0 (Some 10%N))).
  - done.
  - apply (bool_decide_unpack _). by vm_compute.
Defined.

Lemma filter_mid_update k p ms :
  List.filter (λ r, (mid r =? k)%N) (update_eq_id k p ms)
  = apply_patch p <$> List.filter (λ r, (mid r =? k)%N) ms.
Proof.
  unfold update_eq_id. induction ms as [|r ms IH]; [done|].
  cbn [fmap list_fmap List.filter].
  change (list_fmap _ _ ?f ?l) with (f <$> l) in *.
  destruct (N.eqb_spec (mid r) k) as [E|E].
  - rewrite mid_apply_patch. rewrite (proj2 (N.eqb_eq _ _) E).
    rewrite fmap_cons. by f_equal.
  - by rewrite (proj2 (N.eqb_neq _ _) E).
Qed.

Lemma update_eq_id_twice k p ms :
  update_eq_id k p (update_eq_id k p ms) = update_eq_id k p ms.
Proof.
  unfold update_eq_id. rewrite <- list_fmap_compose.
  apply list_fmap_ext. intros _ r _. simpl.
  destruct (N.eqb_spec (mid r) k) as [E|E].
  - rewrite mid_apply_patch, (proj2 (N.eqb_eq _ _) E).
    destruct r, p as [[?|] [?|] [?|] [?|] [?|] [?|] [?|] [?|] [?|]]; done.
  - by rewrite (proj2 (N.eqb_neq _ _) E).
Qed.

(** X18: for a match outside the playoffs, saving the same map twice is
    the same as saving it once. *)
Theorem regular_save_is_idempotent db matchId d info :
  matchId ≠ 0%N →
  single (List.filter (λ r, (mid r =? matchId)%N) (matches db)) = Some info →
  match_type info ≠ Some "playoff" →
  POST true matchId (Some d) (POST true matchId (Some d) db).1
  = POST true matchId (Some d) db.
Proof.
  intros H0 Hinfo Ht.
  rewrite (POST_unfold db matchId d info H0 Hinfo). cbn zeta. cbn [fst].
  rewrite (propagate_skip info) by auto.
  set (allMaps := maps_of matchId (save_map matchId d (match_maps db))).
  rewrite (POST_unfold _ matchId d (apply_patch (payload info allMaps) info) H0).
  2:{ cbn [matches]. rewrite filter_mid_update.
      apply single_Some_elem in Hinfo. by rewrite Hinfo. }
  cbn zeta. cbn [match_maps matches]. rewrite save_map_twice. fold allMaps.
  rewrite propagate_skip by (left; by destruct info).
  assert (payload (apply_patch (payload info allMaps) info) allMaps
          = payload info allMaps) as -> by (by destruct info).
  by rewrite update_eq_id_twice.
Qed.

Lemma regular_save_is_idempotent_witness :
  POST true 1 (Some (map_won_by 1 (Some 20%N)))
    (POST true 1 (Some (map_won_by 1 (Some 20%N))) one_map_saved).1
  = POST true 1 (Some (map_won_by 1 (Some 20%N))) one_map_saved.
Proof.
  apply (regular_save_is_idempotent one_map_saved 1
           (map_won_by 1 (Some 20%N)) league_match); done.
Defined.

End SaveFacts.

(** ** Properties of the update route and of the bracket editor *)

Module EditorFacts.
Import JS DB MapSave Admin MatchUpdate Editor Examples Scenarios.
Import DBFacts MapSaveFacts AdminFacts SaveFacts.

(** X19: an update for a key that no match has is not reported,
    whatever columns it names: the route answers ok and the table is
    left as it was. *)
Theorem update_of_missing_key_is_silent k u ms :
  k ≠ 0%N → k ∉ mid <$> ms →
  MatchUpdate.POST true (Some k) (Some u) ms = (ms, Ok).
Proof.
  intros H0 Hk. unfold MatchUpdate.POST. cbn [negb truthy].
  rewrite (proj2 (N.eqb_neq k 0)) by done. cbn [negb]. f_equal.
  unfold update_where_id. rewrite <- (list_fmap_id ms) at 2.
  apply list_fmap_ext. intros _ r Hr%list_elem_of_lookup_2.
  destruct (N.eqb_spec (mid r) k) as [E|]; [|done].
  destruct Hk. rewrite <- E. by apply list_elem_of_fmap_2.
Qed.

Lemma update_of_missing_key_is_silent_witness :
  MatchUpdate.POST true (Some 7%N) (Some (side_update Team1 10)) bracket
  = (bracket, Ok).
Proof.
  apply (update_of_missing_key_is_silent 7 (side_update Team1 10) bracket).
  - done.
  - apply (bool_decide_unpack _). by vm_compute.
Defined.

Lemma default_twice {A} (x : A) (o : option A) :
  default (default x o) o = default x o.
Proof. by destruct o. Qed.

Lemma write_twice c r : write c (write c r) = write c r.
Proof.
  destruct r, c. unfold write. cbn -[default]. f_equal; apply default_twice.
Qed.

Lemma update_where_id_twice k c ms :
  update_where_id k c (update_where_id k c ms) = update_where_id k c ms.
Proof.
  unfold update_where_id. rewrite <- list_fmap_compose.
  apply list_fmap_ext. intros _ r _. cbn [compose].
  destruct (mid r =? k)%N eqn:E; [|by rewrite E].
  destruct (mid (write c r) =? k)%N eqn:E'; [|done].
  apply write_twice.
Qed.

(** X20: sending the same update twice is the same as sending it once,
    whatever the request is and whatever columns it names, the key
    included. *)
Theorem update_is_idempotent authorized id update ms :
  MatchUpdate.POST authorized id update
    (MatchUpdate.POST authorized id update ms).1
  = MatchUpdate.POST authorized id update ms.
Proof.
  unfold MatchUpdate.POST. destruct authorized; [|done]. cbn [negb].
  destruct id as [k|], update as [u|]; try done.
  destruct (negb (truthy (Some k))); [done|]. cbn [fst].
  by rewrite update_where_id_twice.
Qed.

Lemma mid_write c r : k_id c = None → mid (write c r) = mid r.
Proof. intros H. unfold write. cbn [mid]. by rewrite H. Qed.

Lemma update_where_id_comm k1 c1 k2 c2 ms :
  k1 ≠ k2 → k_id c1 = None → k_id c2 = None →
  update_where_id k1 c1 (update_where_id k2 c2 ms)
  = update_where_id k2 c2 (update_where_id k1 c1 ms).
Proof.
  intros Hne H1 H2. unfold update_where_id. rewrite <- !list_fmap_compose.
  apply list_fmap_ext. intros _ r _. cbn [compose].
  destruct (mid r =? k2)%N eqn:E2, (mid r =? k1)%N eqn:E1;
    rewrite ?(mid_write _ _ H1), ?(mid_write _ _ H2), ?E1, ?E2; try done.
  apply N.eqb_eq in E1, E2. congruence.
Qed.

(** X21: updates of two different matches that leave the key column
    alone do not depend on the order in which they arrive. *)
Theorem updates_of_two_matches_commute k1 u1 k2 u2 ms :
  k1 ≠ k2 → u_id u1 = None → u_id u2 = None →
  (MatchUpdate.POST true (Some k1) (Some u1)
     (MatchUpdate.POST true (Some k2) (Some u2) ms).1).1
  = (MatchUpdate.POST true (Some k2) (Some u2)
       (MatchUpdate.POST true (Some k1) (Some u1) ms).1).1.
Proof.
  intros Hne H1 H2. unfold MatchUpdate.POST. cbn [negb].
  destruct (negb (truthy (Some k1))), (negb (truthy (Some k2))); cbn [fst];
    try done.
  by apply update_where_id_comm.
Qed.

Lemma updates_of_two_matches_commute_witness :
  (MatchUpdate.POST true (Some 1%N) (Some (side_update Team2 30))
     (MatchUpdate.POST true (Some 2%N) (Some (side_update Team1 10)) bracket).1).1
  = (MatchUpdate.POST true (Some 2%N) (Some (side_update Team1 10))
       (MatchUpdate.POST true (Some 1%N) (Some (side_update Team2 30)) bracket).1).1.
Proof.
  apply (updates_of_two_matches_commute 1 (side_update Team2 30)
           2 (side_update Team1 10) bracket); done.
Defined.

(** *** The cells of the editor *)

Lemma find_filter {A} (P Q : A → bool) l :
  List.find P (List.filter Q l) = List.find (λ x, Q x && P x) l.
Proof.
  induction l as [|x l IH]; [done|]. simpl.
  destruct (Q x); simpl; [destruct (P x)|]; by rewrite ?IH.
Qed.

Lemma getMatchAt_slot_match ms round pos :
  getMatchAt (getPlayoffMatches ms) round pos = slot_match round pos ms.
Proof.
  unfold getMatchAt, getPlayoffMatches, slot_match. rewrite find_filter.
  induction ms as [|r ms IH]; [done|]. cbn [List.find]. rewrite IH.
  unfold is_slot. by rewrite andb_assoc.
Qed.

Lemma handleAssign_update k which t ms :
  k ≠ 0%N →
  handleAssign k which t ms = update_eq_id k (side_patch which t) ms.
Proof.
  intros H0. unfold handleAssign, MatchUpdate.POST. cbn [negb truthy].
  rewrite (proj2 (N.eqb_neq k 0)) by done. cbn [negb fst].
  unfold update_where_id, update_eq_id.
  apply list_fmap_ext. intros _ r _.
  destruct (mid r =? k)%N; [|done]. by destruct which, r.
Qed.

(** X22: a choice made in a cell of the editor is what the cell shows
    next: the chosen side holds the chosen team, the other side and the
    key of the match are kept, and every other cell shows the match it
    showed before. *)
Theorem assigned_team_is_shown ms round pos m which t :
  NoDup (mid <$> ms) → mid m ≠ 0%N →
  getMatchAt (getPlayoffMatches ms) round pos = Some m →
  let ms' := handleAssign (mid m) which t ms in
  (∃ m', getMatchAt (getPlayoffMatches ms') round pos = Some m'
     ∧ mid m' = mid m
     ∧ side which m' = Some t
     ∧ (∀ other, other ≠ which → side other m' = side other m))
  ∧ ∀ round' pos', (round', pos') ≠ (round, pos) →
      getMatchAt (getPlayoffMatches ms') round' pos'
      = getMatchAt (getPlayoffMatches ms) round' pos'.
Proof.
  intros Hnd H0 Hm. cbn zeta. rewrite getMatchAt_slot_match in Hm.
  rewrite handleAssign_update by done. split.
  - exists (apply_patch (side_patch which t) m).
    rewrite getMatchAt_slot_match, slot_match_update_eq_id, Hm. simpl.
    rewrite N.eqb_refl. split; [done|]. split; [by destruct which|].
    split; [by destruct which|].
    intros other Hne. by destruct which, other.
  - intros round' pos' Hne. rewrite !getMatchAt_slot_match.
    apply slot_match_elem in Hm as [Hin Hs].
    apply (slot_match_update_other _ _ _ _ _ m); try done.
    destruct (is_slot round' pos' m) eqn:E; [|done].
    destruct Hne. eapply is_slot_inj; eauto.
Qed.

Lemma assigned_team_is_shown_witness :
  let ms' := handleAssign 2 Team2 30 bracket in
  (∃ m', getMatchAt (getPlayoffMatches ms') 2 1 = Some m'
     ∧ mid m' = 2%N
     ∧ side Team2 m' = Some 30%N
     ∧ (∀ other, other ≠ Team2 → side other m' = side other empty_successor))
  ∧ ∀ round' pos', (round', pos') ≠ (2, 1) →
      getMatchAt (getPlayoffMatches ms') round' pos'
      = getMatchAt (getPlayoffMatches bracket) round' pos'.
Proof.
  apply (assigned_team_is_shown bracket 2 1 empty_successor Team2 30).
  - apply (bool_decide_unpack _). by vm_compute.
  - done.
  - reflexivity.
Defined.

Lemma has_cell_other round pos round' pos' :
  has_cell round pos = false → has_cell round' pos' = true →
  (round', pos') ≠ (round, pos).
Proof. intros Hf Ht E. simplify_eq. congruence. Qed.

(** X23: when the editor has no cell for the next round at the position
    of a match, the propagation of its winner changes nothing the editor
    shows: every cell holds the match it held before. This is so for the
    winner of the Grand Final and for the winners at positions 5 to 8 of
    round 2, 3 and 4 of round 3, and 2 of round 4. *)
Theorem propagation_outside_the_editor info w ms :
  NoDup (mid <$> ms) →
  has_cell (next_round info) (same_pos info) = false →
  cells (getPlayoffMatches (propagate info w ms)) = cells (getPlayoffMatches ms).
Proof.
  intros Hnd Hno.
  assert (∀ round pos, has_cell round pos = true →
            getMatchAt (getPlayoffMatches (propagate info w ms)) round pos
            = getMatchAt (getPlayoffMatches ms) round pos) as Hcell.
  { intros round pos Hyes. rewrite !getMatchAt_slot_match.
    apply propagate_other_cells; [done|]. by eapply has_cell_other. }
  unfold cells, rounds. cbn [mbind list_bind fmap list_fmap seq app fst snd].
  by rewrite !Hcell by reflexivity.
Qed.

Lemma propagation_outside_the_editor_witness :
  cells (getPlayoffMatches (propagate grand_final (Some 10%N) [grand_final]))
  = cells (getPlayoffMatches [grand_final]).
Proof.
  apply (propagation_outside_the_editor grand_final (Some 10%N) [grand_final]).
  - apply (bool_decide_unpack _). by vm_compute.
  - reflexivity.
Defined.

(** X24: the option "TBD" of a cell stores the team key 0, which the
    propagation reads as an empty side: once a side of a full successor
    is set to "TBD", the next propagation into that match puts the
    winner on that side and keeps the other side. *)
Theorem tbd_side_is_refilled info w ms nm which :
  NoDup (mid <$> ms) → mid nm ≠ 0%N →
  match_type info = Some "playoff" → w ≠ 0%N → same_pos info ≠ 0 →
  slot_match (next_round info) (same_pos info) ms = Some nm →
  truthy (team1_id nm) = true → truthy (team2_id nm) = true →
  propagate info (Some w) ms = ms
  ∧ ∃ m',
      slot_match (next_round info) (same_pos info)
        (propagate info (Some w) (handleAssign (mid nm) which 0 ms)) = Some m'
      ∧ mid m' = mid nm
      ∧ side which m' = Some w
      ∧ ∀ other, other ≠ which → side other m' = side other nm.
Proof.
  intros Hnd H0 Ht Hw Hpos Hnm H1 H2.
  split; [by apply (propagate_full info _ ms nm)|].
  rewrite handleAssign_update by done.
  set (p := side_patch which 0).
  assert (slot_match (next_round info) (same_pos info)
            (update_eq_id (mid nm) p ms) = Some (apply_patch p nm)) as Hs1.
  { rewrite slot_match_update_eq_id, Hnm. cbn [fmap option_fmap option_map].
    by rewrite N.eqb_refl. }
  assert (∀ q, slot_match (next_round info) (same_pos info)
                 (update_eq_id (mid nm) q (update_eq_id (mid nm) p ms))
               = Some (apply_patch q (apply_patch p nm))) as Hs2.
  { intros q. rewrite slot_match_update_eq_id, Hs1.
    cbn [fmap option_fmap option_map].
    by rewrite mid_apply_patch, N.eqb_refl. }
  rewrite propagate_unfold by done. rewrite Hs1, mid_apply_patch.
  destruct which.
  - assert (truthy (team1_id (apply_patch p nm)) = false) as -> by done.
    cbn [negb]. rewrite Hs2. eexists. split; [reflexivity|].
    split; [done|]. split; [done|]. intros [] ?; done.
  - assert (truthy (team1_id (apply_patch p nm)) = true) as -> by exact H1.
    assert (truthy (team2_id (apply_patch p nm)) = false) as -> by done.
    cbn [negb]. rewrite Hs2. eexists. split; [reflexivity|].
    split; [done|]. split; [done|]. intros [] ?; done.
Qed.

Lemma tbd_side_is_refilled_witness :
  propagate round1_match (Some 10%N) full_bracket = full_bracket
  ∧ ∃ m',
      slot_match 2 1
        (propagate round1_match (Some 10%N) (handleAssign 2 Team2 0 full_bracket))
      = Some m'
      ∧ mid m' = 2%N
      ∧ side Team2 m' = Some 10%N
      ∧ ∀ other, other ≠ Team2 → side other m' = side other full_successor.
Proof.
  apply (tbd_side_is_refilled round1_match 10 full_bracket full_successor Team2).
  - apply (bool_decide_unpack _). by vm_compute.
  - done.
  - done.
  - done.
  - done.
  - reflexivity.
  - reflexivity.
  - reflexivity.
Defined.

End EditorFacts.

(** ** Properties of the rate limiter *)

Module MiddlewareFacts.
Import Middleware.

Lemma allow_fresh ip key limit windowMs now (buckets : gmap string Bucket) :
  (∀ b, buckets !! (ip +:+ ":" +:+ key) = Some b → reset b < now) →
  allow ip key limit windowMs now buckets
  = (<[ip +:+ ":" +:+ key := mkBucket 1 (now + windowMs)]> buckets, true).
Proof.
  intros Hb. unfold allow. cbn zeta.
  destruct (buckets !! _) as [b|]; [|done].
  by rewrite (proj2 (Z.ltb_lt _ _) (Hb b eq_refl)).
Qed.

Lemma allow_in_window ip key limit windowMs now
    (buckets : gmap string Bucket) b :
  buckets !! (ip +:+ ":" +:+ key) = Some b → now ≤ reset b →
  allow ip key limit windowMs now buckets
  = if count b <? limit
    then (<[ip +:+ ":" +:+ key := mkBucket (count b + 1) (reset b)]> buckets, true)
    else (buckets, false).
Proof.
  intros Hb Hnow. unfold allow. cbn zeta. rewrite Hb.
  by rewrite (proj2 (Z.ltb_ge _ _) Hnow).
Qed.

Lemma calls_in_window ip key limit windowMs times :
  ∀ (buckets : gmap string Bucket) b,
  buckets !! (ip +:+ ":" +:+ key) = Some b →
  Forall (λ t, t ≤ reset b) times →
  let n := Z.to_nat (Z.min (Z.of_nat (length times)) (Z.max 0 (limit - count b))) in
  (calls ip key limit windowMs times buckets).2
    = replicate n true ++ replicate (length times - n) false
  ∧ (calls ip key limit windowMs times buckets).1 !! (ip +:+ ":" +:+ key)
    = Some (mkBucket (count b + Z.of_nat n) (reset b)).
Proof.
  induction times as [|t times IH]; intros buckets b Hb Htimes; cbn zeta.
  - cbn [calls length fst snd].
    replace (Z.to_nat (Z.min (Z.of_nat 0) (Z.max 0 (limit - count b))))
      with 0%nat by lia.
    split; [done|].
    rewrite Hb. destruct b. cbn [count reset]. do 2 f_equal. lia.
  - apply Forall_cons in Htimes as [Ht Htimes].
    cbn [calls fst snd]. rewrite (allow_in_window _ _ _ _ _ _ b Hb Ht).
    destruct (Z.ltb_spec (count b) limit) as [Hlt|Hge]; cbn [fst snd].
    + destruct (IH (<[ip +:+ ":" +:+ key := mkBucket (count b + 1) (reset b)]> buckets)
                  (mkBucket (count b + 1) (reset b))) as [IH1 IH2];
        [by rewrite lookup_insert_eq|done|].
      cbn [count reset] in IH1, IH2. rewrite IH1, IH2. cbn [length].
      set (n' := Z.to_nat (Z.min (Z.of_nat (length times))
                             (Z.max 0 (limit - (count b + 1))))).
      replace (Z.to_nat (Z.min (Z.of_nat (S (length times)))
                           (Z.max 0 (limit - count b)))) with (S n') by lia.
      split; [done|]. do 2 f_equal. lia.
    + destruct (IH buckets b Hb Htimes) as [IH1 IH2].
      rewrite IH1, IH2. cbn [length].
      replace (Z.to_nat (Z.min (Z.of_nat (length times))
                           (Z.max 0 (limit - count b)))) with 0%nat by lia.
      replace (Z.to_nat (Z.min (Z.of_nat (S (length times)))
                           (Z.max 0 (limit - count b)))) with 0%nat by lia.
      split; [|done]. cbn [replicate app]. by rewrite !Nat.sub_0_r.
Qed.

Lemma calls_from_fresh ip key limit windowMs t0 times
    (buckets : gmap string Bucket) :
  (∀ b, buckets !! (ip +:+ ":" +:+ key) = Some b → reset b < t0) →
  Forall (λ t, t ≤ t0 + windowMs) times →
  let n := Z.to_nat (Z.min (1 + Z.of_nat (length times)) (Z.max 1 limit)) in
  (calls ip key limit windowMs (t0 :: times) buckets).2
    = replicate n true ++ replicate (S (length times) - n) false
  ∧ (calls ip key limit windowMs (t0 :: times) buckets).1 !! (ip +:+ ":" +:+ key)
    = Some (mkBucket (Z.of_nat n) (t0 + windowMs)).
Proof.
  intros Hfresh Htimes. cbn zeta. cbn [calls fst snd].
  rewrite allow_fresh by done. cbn [fst snd].
  destruct (calls_in_window ip key limit windowMs times
              (<[ip +:+ ":" +:+ key := mkBucket 1 (t0 + windowMs)]> buckets)
              (mkBucket 1 (t0 + windowMs))) as [H1 H2];
    [by rewrite lookup_insert_eq|done|].
  cbn [count reset] in H1, H2. rewrite H1, H2.
  set (n' := Z.to_nat (Z.min (Z.of_nat (length times)) (Z.max 0 (limit - 1)))).
  replace (Z.to_nat (Z.min (1 + Z.of_nat (length times)) (Z.max 1 limit)))
    with (S n') by lia.
  split; [done|]. do 2 f_equal. lia.
Qed.

Lemma calls_from_fresh_answers ip key limit windowMs t0 times
    (buckets : gmap string Bucket) :
  (∀ b, buckets !! (ip +:+ ":" +:+ key) = Some b → reset b < t0) →
  Forall (λ t, t ≤ t0 + windowMs) times →
  (calls ip key limit windowMs (t0 :: times) buckets).2
  = replicate (Z.to_nat (Z.min (1 + Z.of_nat (length times)) (Z.max 1 limit))) true
    ++ replicate
         (S (length times)
          - Z.to_nat (Z.min (1 + Z.of_nat (length times)) (Z.max 1 limit)))
         false.
Proof. intros Hfresh Htimes. by apply calls_from_fresh. Qed.

(** X25: in the window opened by a first call, the limiter lets the
    first [limit] calls through and refuses the others; the opening call
    always passes, also when the limit is zero or negative. *)
Theorem window_admits_limit_calls ip key limit windowMs t0 times
    (buckets : gmap string Bucket) :
  (∀ b, buckets !! (ip +:+ ":" +:+ key) = Some b → reset b < t0) →
  Forall (λ t, t ≤ t0 + windowMs) times →
  let n := Z.to_nat (Z.min (1 + Z.of_nat (length times)) (Z.max 1 limit)) in
  (calls ip key limit windowMs (t0 :: times) buckets).2
  = replicate n true ++ replicate (S (length times) - n) false.
Proof. intros Hfresh Htimes. by apply calls_from_fresh. Qed.

Lemma window_admits_limit_calls_witness :
  (calls "10.0.0.1" "admin-login" 2 1000 [5000; 5001; 5002; 6000] ∅).2
  = [true; true; false; false].
Proof.
  apply (window_admits_limit_calls "10.0.0.1" "admin-login" 2 1000 5000
           [5001; 5002; 6000] ∅).
  - intros b Hb. by rewrite lookup_empty in Hb.
  - repeat constructor; lia.
Defined.

(** X26: the window is fixed by its opening call: the calls that
    follow, let through or refused, do not move its end, and the first
    call after the end passes and opens the next window. *)
Theorem refused_calls_do_not_extend_window ip key limit windowMs t0 times t
    (buckets : gmap string Bucket) :
  (∀ b, buckets !! (ip +:+ ":" +:+ key) = Some b → reset b < t0) →
  Forall (λ t, t ≤ t0 + windowMs) times →
  t0 + windowMs < t →
  let after := (calls ip key limit windowMs (t0 :: times) buckets).1 in
  reset <$> after !! (ip +:+ ":" +:+ key) = Some (t0 + windowMs)
  ∧ allow ip key limit windowMs t after
    = (<[ip +:+ ":" +:+ key := mkBucket 1 (t + windowMs)]> after, true).
Proof.
  intros Hfresh Htimes Ht. cbn zeta.
  destruct (calls_from_fresh ip key limit windowMs t0 times buckets Hfresh Htimes)
    as [_ Hb].
  cbn zeta in Hb. split; [by rewrite Hb|].
  apply allow_fresh. intros b Eb. rewrite Hb in Eb. by simplify_eq/=.
Qed.

Lemma refused_calls_do_not_extend_window_witness :
  let after := (calls "10.0.0.1" "admin-login" 2 1000 [5000; 5001; 5002; 6000] ∅).1 in
  reset <$> after !! "10.0.0.1:admin-login" = Some 6000
  ∧ allow "10.0.0.1" "admin-login" 2 1000 6001 after
    = (<["10.0.0.1:admin-login" := mkBucket 1 7001]> after, true).
Proof.
  apply (refused_calls_do_not_extend_window "10.0.0.1" "admin-login" 2 1000 5000
           [5001; 5002; 6000] 6001 ∅).
  - intros b Hb. by rewrite lookup_empty in Hb.
  - repeat constructor; lia.
  - lia.
Defined.

(** *** The two limited routes *)

Lemma login_is_not_github path :
  startsWith path "/api/admin/login" = true →
  startsWith path "/api/github/" = false.
Proof.
  unfold startsWith.
  do 6 (destruct path as [|? path]; [done|]; cbn [String.prefix];
        destruct (ascii_dec _ _); [subst|done]).
  cbn [String.prefix]. destruct (ascii_dec _ _); [discriminate|done].
Qed.

Lemma middleware_login ip forwarded path now buckets :
  startsWith path "/api/admin/login" = true →
  middleware ip forwarded path now buckets
  = ((allow (client ip forwarded) "admin-login" 5 600000 now buckets).1,
     if (allow (client ip forwarded) "admin-login" 5 600000 now buckets).2
     then Next else RateLimit).
Proof.
  intros Hp. unfold middleware. cbn zeta.
  rewrite Hp, (login_is_not_github path Hp).
  change (10 * 60 * 1000) with 600000.
  by destruct (allow _ _ _ _ _ _) as [? []].
Qed.

Lemma requests_login ip forwarded reqs : ∀ buckets,
  Forall (λ r, startsWith r.1 "/api/admin/login" = true) reqs →
  requests ip forwarded reqs buckets
  = ((calls (client ip forwarded) "admin-login" 5 600000 reqs.*2 buckets).1,
     (λ ok : bool, if ok then Next else RateLimit)
       <$> (calls (client ip forwarded) "admin-login" 5 600000 reqs.*2 buckets).2).
Proof.
  induction reqs as [|[path now] reqs IH]; intros buckets Hreqs; [done|].
  apply Forall_cons in Hreqs as [Hp Hreqs].
  cbn [requests fmap list_fmap calls fst snd].
  change (list_fmap _ _ ?f ?l) with (f <$> l).
  rewrite (middleware_login _ _ _ _ _ Hp). cbn [fst snd].
  by rewrite IH.
Qed.

(** X27: of the login requests that a client sends within ten minutes
    of its first one, the middleware passes the first five on and
    answers the others with the rate-limit status. *)
Theorem login_attempts_are_limited ip forwarded path t0 reqs buckets :
  (∀ b, buckets !! (client ip forwarded +:+ ":admin-login") = Some b → reset b < t0) →
  Forall (λ r, startsWith r.1 "/api/admin/login" = true ∧ r.2 ≤ t0 + 600000)
    ((path, t0) :: reqs) →
  (requests ip forwarded ((path, t0) :: reqs) buckets).2
  = replicate (Nat.min (S (length reqs)) 5) Next
    ++ replicate (S (length reqs) - 5) RateLimit.
Proof.
  intros Hfresh Hreqs.
  rewrite requests_login
    by (eapply Forall_impl; [exact Hreqs|]; by intros ? [? _]).
  cbn [snd]. rewrite fmap_cons. cbn [snd].
  apply Forall_cons in Hreqs as [_ Hreqs].
  rewrite (calls_from_fresh_answers (client ip forwarded) "admin-login" 5 600000
             t0 reqs.*2 buckets Hfresh).
  - rewrite length_fmap, fmap_app, !fmap_replicate.
    replace (Z.to_nat (Z.min (1 + Z.of_nat (length reqs)) (Z.max 1 5)))
      with (Nat.min (S (length reqs)) 5) by lia.
    do 2 f_equal. lia.
  - apply Forall_fmap. eapply Forall_impl; [exact Hreqs|]. by intros ? [_ ?].
Qed.

Lemma login_attempts_are_limited_witness :
  (requests (Some "10.0.0.1") None
     [("/api/admin/login", 0); ("/api/admin/login", 1); ("/api/admin/login", 2);
      ("/api/admin/login", 3); ("/api/admin/login", 4); ("/api/admin/login", 5);
      ("/api/admin/login", 600000)] ∅).2
  = [Next; Next; Next; Next; Next; RateLimit; RateLimit].
Proof.
  apply (login_attempts_are_limited (Some "10.0.0.1") None "/api/admin/login" 0
           [("/api/admin/login", 1); ("/api/admin/login", 2);
            ("/api/admin/login", 3); ("/api/admin/login", 4);
            ("/api/admin/login", 5); ("/api/admin/login", 600000)] ∅).
  - intros b Hb. by rewrite lookup_empty in Hb.
  - repeat constructor; cbn [fst snd]; lia.
Defined.

Lemma github_is_not_login path :
  startsWith path "/api/github/" = true →
  startsWith path "/api/admin/login" = false.
Proof.
  intros Hg. destruct (startsWith path "/api/admin/login") eqn:Hl; [|done].
  apply login_is_not_github in Hl. congruence.
Qed.

Lemma length_append s t :
  String.length (s +:+ t) = (String.length s + String.length t)%nat.
Proof. induction s as [|a s IH]; simpl; [done|by f_equal]. Qed.

Lemma keys_differ c1 : ∀ c2, c1 +:+ ":github" ≠ c2 +:+ ":admin-login".
Proof.
  induction c1 as [|a c1 IH]; intros c2 E.
  - apply (f_equal String.length) in E. rewrite !length_append in E.
    simpl in E. lia.
  - destruct c2 as [|b c2].
    + cbn [String.append] in E. injection E as _ E.
      do 5 (destruct c1 as [|? c1]; [discriminate|]; cbn [String.append] in E;
            injection E as _ E).
      apply (f_equal String.length) in E. rewrite !length_append in E.
      simpl in E. lia.
    + cbn [String.append] in E. injection E as _ E. by apply (IH c2).
Qed.

(** X28: the requests to the GitHub routes are counted apart from the
    login attempts: such a request leaves the login bucket of every
    client as it was. *)
Theorem github_requests_spare_login_budget ip forwarded path now buckets c :
  startsWith path "/api/github/" = true →
  (middleware ip forwarded path now buckets).1 !! (c +:+ ":admin-login")
  = buckets !! (c +:+ ":admin-login").
Proof.
  intros Hg. unfold middleware. cbn zeta.
  rewrite Hg, (github_is_not_login path Hg). cbn [negb fst snd].
  assert ((allow (client ip forwarded) "github" 60 (60 * 1000) now buckets).1
            !! (c +:+ ":admin-login") = buckets !! (c +:+ ":admin-login")) as Hk.
  { unfold allow. cbn zeta.
    repeat case_match; cbn [fst]; try done;
      by rewrite lookup_insert_ne by apply keys_differ. }
  by destruct (allow _ _ _ _ _ _) as [? []].
Qed.

Lemma github_requests_spare_login_budget_witness :
  (middleware (Some "10.0.0.1") None "/api/github/matches" 0
     {["10.0.0.1:admin-login" := mkBucket 5 1000]}).1
    !! ("10.0.0.1" +:+ ":admin-login")
  = ({["10.0.0.1:admin-login" := mkBucket 5 1000]} : gmap string Bucket)
      !! ("10.0.0.1" +:+ ":admin-login").
Proof.
  apply (github_requests_spare_login_budget (Some "10.0.0.1") None
           "/api/github/matches" 0
           {["10.0.0.1:admin-login" := mkBucket 5 1000]} "10.0.0.1").
  reflexivity.
Defined.

End MiddlewareFacts.
